(** * Box-score table extraction of pfr-dl (src/main.rs)

    A shallow embedding of the scraping core of [src/main.rs]:
    - the markup rewrite applied to each fetched game log (in [process_week]);
    - [parse_player_stats_table] (table lookup, row and cell walk);
    - [parse_game_log] (mandatory and optional sections);
    - the per-category column discovery and the CSV writes of [process_week].

    Strings are Rust [&str] values, modelled as lists of Unicode code points
    ([list N]); the byte order of UTF-8 is the code point order, so Rust's
    [Ord for str] is the lexicographic order on these lists. A [BTreeMap]
    is a strictly ascending association list. The DOM built by [scraper]
    is a rose tree of nodes. *)

From Stdlib Require Import List NArith Bool Lia Sorted Ascii String.
Import ListNotations.
Open Scope N_scope.
Set Warnings "-register-all".

(* ------------------------------------------------------------------ *)
(** ** Strings *)

Definition str := list N.

(** ASCII literal to code points, for writing constants. *)
Fixpoint s (x : String.string) : str :=
  match x with
  | EmptyString => []
  | String a x' => N_of_ascii a :: s x'
  end.

Fixpoint str_eqb (a b : str) : bool :=
  match a, b with
  | [], [] => true
  | x :: a', y :: b' => N.eqb x y && str_eqb a' b'
  | _, _ => false
  end.

(** [Ord for str]: lexicographic on bytes, i.e. on code points. *)
Fixpoint str_compare (a b : str) : comparison :=
  match a, b with
  | [], [] => Eq
  | [], _ :: _ => Lt
  | _ :: _, [] => Gt
  | x :: a', y :: b' =>
      match N.compare x y with
      | Eq => str_compare a' b'
      | c => c
      end
  end.

(** [char::is_whitespace]: the Unicode White_Space property. *)
Definition is_whitespace (c : N) : bool :=
  ((9 <=? c) && (c <=? 13)) || (c =? 32) || (c =? 133) || (c =? 160)
  || (c =? 5760) || ((8192 <=? c) && (c <=? 8202)) || (c =? 8232)
  || (c =? 8233) || (c =? 8239) || (c =? 8287) || (c =? 12288).

Fixpoint trim_start (x : str) : str :=
  match x with
  | [] => []
  | c :: x' => if is_whitespace c then trim_start x' else x
  end.

(** [str::trim]: strip leading and trailing white space. *)
Definition trim (x : str) : str := rev (trim_start (rev (trim_start x))).

(* ------------------------------------------------------------------ *)
(** ** [BTreeMap<&str, &str>] *)

Definition btmap := list (str * str).

Definition bt_new : btmap := [].

(** [BTreeMap::insert]: an existing key keeps its place, its value is
    replaced. *)
Fixpoint bt_insert (k v : str) (m : btmap) : btmap :=
  match m with
  | [] => [(k, v)]
  | (k', v') :: m' =>
      match str_compare k k' with
      | Lt => (k, v) :: m
      | Eq => (k', v) :: m'
      | Gt => (k', v') :: bt_insert k v m'
      end
  end.

Fixpoint bt_get (k : str) (m : btmap) : option str :=
  match m with
  | [] => None
  | (k', v') :: m' => if str_eqb k k' then Some v' else bt_get k m'
  end.

(** [BTreeMap::keys]: ascending order. *)
Definition bt_keys (m : btmap) : list str := map fst m.

(* ------------------------------------------------------------------ *)
(** ** The DOM of [scraper] *)

(** [Node::Element], [Node::Text]; every other kind of node (comment,
    doctype, processing instruction) is [Other]. Element names are the
    lower-cased local names the HTML parser produces. *)
Inductive node : Type :=
| Element (name : str) (attrs : list (str * str)) (kids : list node)
| Text (t : str)
| Other.

(** The tree of [Html::parse_document]: the children of the document
    node. *)
Definition html := list node.

(** [Element::attr]: the first attribute of that name. *)
Fixpoint attr (k : str) (a : list (str * str)) : option str :=
  match a with
  | [] => None
  | (k', v) :: a' => if str_eqb k k' then Some v else attr k a'
  end.

Definition node_attr (k : str) (n : node) : option str :=
  match n with
  | Element _ a _ => attr k a
  | _ => None
  end.

(** [NodeRef::children] *)
Definition children (n : node) : list node :=
  match n with
  | Element _ _ kids => kids
  | _ => []
  end.

(** [NodeRef::first_child] *)
Definition first_child (n : node) : option node :=
  match children n with
  | [] => None
  | c :: _ => Some c
  end.

Fixpoint first_some {A B : Type} (f : A -> option B) (l : list A) : option B :=
  match l with
  | [] => None
  | x :: l' => match f x with Some y => Some y | None => first_some f l' end
  end.

(** First element of the subtree (the node itself included) matching a
    selector, in document order. *)
Fixpoint select_node (p : node -> bool) (n : node) : option node :=
  match n with
  | Element _ _ kids =>
      if p n then Some n else first_some (select_node p) kids
  | _ => None
  end.

(** [.select(sel).next()] over a forest: [Html::select] over the
    document's children, [ElementRef::select] over an element's children
    (the element itself is skipped). *)
Definition select_first (p : node -> bool) (l : list node) : option node :=
  first_some (select_node p) l.

(** Selector [#id] (no-quirks documents: case-sensitive). *)
Definition sel_id (id : str) (n : node) : bool :=
  match node_attr (s "id") n with
  | Some v => str_eqb v id
  | None => false
  end.

(** Type selector, e.g. [tbody]. *)
Definition sel_tag (t : str) (n : node) : bool :=
  match n with
  | Element nm _ _ => str_eqb nm t
  | _ => false
  end.

(* ------------------------------------------------------------------ *)
(** ** Records of [parse_player_stats_table] *)

Inductive StatsType : Type :=
| Offense | Defense | Returns | Kicking
| AdvPassing | AdvRushing | AdvReceiving | AdvDefense.

Definition StatsType_eqb (a b : StatsType) : bool :=
  match a, b with
  | Offense, Offense | Defense, Defense | Returns, Returns
  | Kicking, Kicking | AdvPassing, AdvPassing | AdvRushing, AdvRushing
  | AdvReceiving, AdvReceiving | AdvDefense, AdvDefense => true
  | _, _ => false
  end.

Record TypedStats : Type := {
  stats_type : StatsType;
  stats : btmap
}.

Record PlayerGameStats : Type := {
  player_id : str;
  player_name : str;
  typed_stats : TypedStats
}.

Record GameStats : Type := {
  game_id : str;
  player_stats : list PlayerGameStats
}.

Record GameInfo : Type := {
  year : N;
  week_num : N;
  stats_of_game : GameStats
}.

(** Result of a Rust function that returns [Result<A, String>] and may
    panic ([unwrap] on [None]). *)
Inductive outcome (A : Type) : Type :=
| Ok (a : A)
| Err (e : str)
| Panic.
Arguments Ok {A} a.
Arguments Err {A} e.
Arguments Panic {A}.

(* ------------------------------------------------------------------ *)
(** ** [parse_player_stats_table] *)

(** One iteration of the inner [for table_data_noderef in table_row.children()]
    loop. [None] is [continue 'rowlabel]. *)
Definition cell_step (player_data : btmap) (table_data_noderef : node)
  : option btmap :=
  match table_data_noderef with
  | Element _ a _ =>
      let player_data :=
        match attr (s "data-append-csv") a with
        | Some id => bt_insert (s "player_id") id player_data
        | None => player_data
        end in
      match attr (s "data-stat") a with
      | None => None
      | Some stat_name =>
          let data_val_elt :=
            if str_eqb stat_name (s "player")
            then match first_child table_data_noderef with
                 | Some n => first_child n
                 | None => None
                 end
            else first_child table_data_noderef in
          match data_val_elt with
          | Some (Text t) => Some (bt_insert (trim stat_name) (trim t) player_data)
          | _ => Some player_data
          end
      end
  | _ => Some player_data
  end.

(** The whole inner loop over the cells of a row. *)
Fixpoint scan_cells (player_data : btmap) (cells : list node) : option btmap :=
  match cells with
  | [] => Some player_data
  | c :: cs =>
      match cell_step player_data c with
      | None => None
      | Some pd => scan_cells pd cs
      end
  end.

(** One iteration of the ['rowlabel] loop: the record pushed, if any. *)
Definition extract_row (stats_type : StatsType) (table_row : node)
  : option PlayerGameStats :=
  match scan_cells bt_new (children table_row) with
  | None => None
  | Some player_data =>
      match bt_get (s "player_id") player_data, bt_get (s "player") player_data with
      | Some pid, Some pname =>
          Some {| player_id := pid; player_name := pname;
                  typed_stats := {| stats_type := stats_type; stats := player_data |} |}
      | _, _ => None
      end
  end.

Definition extract_rows (stats_type : StatsType) (rows : list node)
  : list PlayerGameStats :=
  flat_map (fun r => match extract_row stats_type r with
                     | Some p => [p]
                     | None => []
                     end) rows.

(** Selector strings are always [#<anchor>]; the selector matches the
    elements whose [id] is the anchor. *)
Definition missing_table_msg (anchor : str) : str :=
  s "no table element for selector '#" ++ anchor ++ s "' found".

Definition parse_player_stats_table (html_doc : html) (anchor : str)
  (stats_type : StatsType) : outcome (list PlayerGameStats) :=
  match select_first (sel_id anchor) html_doc with
  | None => Err (missing_table_msg anchor)
  | Some table_elt =>
      match select_first (sel_tag (s "tbody")) (children table_elt) with
      | None => Panic
      | Some table_body => Ok (extract_rows stats_type (children table_body))
      end
  end.

(* ------------------------------------------------------------------ *)
(** ** [parse_game_log] *)

(** ASCII lower-casing, for attribute values the selector engine compares
    ASCII case-insensitively in HTML documents ([rel] is one of them). *)
Definition ascii_lower (c : N) : N :=
  if (65 <=? c) && (c <=? 90) then c + 32 else c.

(** Selector [link[rel=canonical]]. *)
Definition sel_canonical_link (n : node) : bool :=
  sel_tag (s "link") n &&
  match node_attr (s "rel") n with
  | Some v => str_eqb (map ascii_lower v) (s "canonical")
  | None => false
  end.

Definition outcome_bind {A B : Type} (o : outcome A) (f : A -> outcome B)
  : outcome B :=
  match o with
  | Ok a => f a
  | Err e => Err e
  | Panic => Panic
  end.

(** The [?] operator. *)
Notation "'let?' x := o 'in' k" := (outcome_bind o (fun x => k))
  (at level 200, x name, o at level 100, k at level 200).

(** Value of an optional section: [if let Ok(stats) = adv_stats]; a panic
    while parsing it still aborts ([None]). *)
Definition optional_stats {A : Type} (o : outcome (list A)) : option (list A) :=
  match o with
  | Ok l => Some l
  | Err _ => Some []
  | Panic => None
  end.

Section GameLog.

(** [GAME_ID_REGEX.captures(game_link).unwrap().get(1).unwrap()]: the
    regular-expression engine is a collaborator; [None] is a failed
    [unwrap]. *)
Variable game_id_capture : str -> option str.

(** The [game_id] read from the canonical link; [None] is a panic. *)
Definition game_link_id (game_log_html : html) : option str :=
  match select_first sel_canonical_link game_log_html with
  | None => None
  | Some l =>
      match node_attr (s "href") l with
      | None => None
      | Some game_link => game_id_capture game_link
      end
  end.

Definition parse_game_log (game_log_html : html) : outcome GameStats :=
  match game_link_id game_log_html with
  | None => Panic
  | Some game_id =>
      (* Mandatory stats. *)
      let? off := parse_player_stats_table game_log_html (s "player_offense") Offense in
      let? def := parse_player_stats_table game_log_html (s "player_defense") Defense in
      let? ret := parse_player_stats_table game_log_html (s "returns") Returns in
      let? kick := parse_player_stats_table game_log_html (s "kicking") Kicking in
      (* Optional advanced stats. *)
      let adv_passing := parse_player_stats_table game_log_html (s "passing_advanced") AdvPassing in
      let adv_rushing := parse_player_stats_table game_log_html (s "rushing_advanced") AdvRushing in
      let adv_receiving := parse_player_stats_table game_log_html (s "receiving_advanced") AdvReceiving in
      let adv_def := parse_player_stats_table game_log_html (s "defense_advanced") AdvDefense in
      match optional_stats adv_passing, optional_stats adv_rushing,
            optional_stats adv_receiving, optional_stats adv_def with
      | Some p, Some r, Some rc, Some d =>
          Ok {| game_id := game_id;
                player_stats := off ++ def ++ ret ++ kick ++ p ++ r ++ rc ++ d |}
      | _, _, _, _ => Panic
      end
  end.

End GameLog.

(** The anchor and the kind of each section, as [parse_game_log] uses
    them. *)
Definition anchor_of (t : StatsType) : str :=
  match t with
  | Offense => s "player_offense"
  | Defense => s "player_defense"
  | Returns => s "returns"
  | Kicking => s "kicking"
  | AdvPassing => s "passing_advanced"
  | AdvRushing => s "rushing_advanced"
  | AdvReceiving => s "receiving_advanced"
  | AdvDefense => s "defense_advanced"
  end.

Definition mandatory (t : StatsType) : bool :=
  match t with
  | Offense | Defense | Returns | Kicking => true
  | _ => false
  end.

Definition all_stats_types : list StatsType :=
  [Offense; Defense; Returns; Kicking;
   AdvPassing; AdvRushing; AdvReceiving; AdvDefense].

(* ------------------------------------------------------------------ *)
(** ** The markup rewrite of [process_week] *)

Fixpoint is_prefix (p x : str) : bool :=
  match p, x with
  | [], _ => true
  | c :: p', d :: x' => N.eqb c d && is_prefix p' x'
  | _ :: _, [] => false
  end.

(** [str::replace(pat, "")] for a non-empty [pat]: matches are found left
    to right without overlap and dropped; [skip] counts the characters of
    the current match still to drop. *)
Fixpoint replace_empty_from (pat : str) (skip : nat) (x : str) : str :=
  match x with
  | [] => []
  | c :: x' =>
      match skip with
      | S n => replace_empty_from pat n x'
      | O => if is_prefix pat x
             then replace_empty_from pat (pred (List.length pat)) x'
             else c :: replace_empty_from pat O x'
      end
  end.

Definition replace_empty (pat x : str) : str := replace_empty_from pat O x.

Definition nl : N := 10.

(** [game_log_html_str.replace("\n<!--", "").replace("\n-->", "")] *)
Definition uncomment (game_log_html_str : str) : str :=
  replace_empty (nl :: s "-->") (replace_empty (nl :: s "<!--") game_log_html_str).

(** Whether [pat] occurs in [x]. *)
Fixpoint contains (pat x : str) : bool :=
  match x with
  | [] => is_prefix pat []
  | _ :: x' => is_prefix pat x || contains pat x'
  end.

(* ------------------------------------------------------------------ *)
(** ** Column discovery and CSV output of [process_week] *)

(** [u32::to_string] (decimal, no leading zeros). *)
Fixpoint dec_digits (fuel : nat) (n : N) (acc : str) : str :=
  match fuel with
  | O => acc
  | S f =>
      let acc' := (48 + n mod 10) :: acc in
      if n <? 10 then acc' else dec_digits f (n / 10) acc'
  end.

Definition to_string (n : N) : str := dec_digits (S (N.size_nat n)) n [].

(** [HashMap<StatsType, Vec<&str>>], as an association list in insertion
    order (the iteration order of a [HashMap] is unspecified; only the
    order of the writes into one file matters below). *)
Definition cols_map := list (StatsType * list str).

Fixpoint cols_get (t : StatsType) (m : cols_map) : option (list str) :=
  match m with
  | [] => None
  | (t', c) :: m' => if StatsType_eqb t t' then Some c else cols_get t m'
  end.

(** [stats_type_cols.entry(t).or_insert_with(|| typed_stats.stats.keys().copied().collect())] *)
Definition entry_or_insert (m : cols_map) (ts : TypedStats) : cols_map :=
  match cols_get (stats_type ts) m with
  | Some _ => m
  | None => m ++ [(stats_type ts, bt_keys (stats ts))]
  end.

(** [all_typed_stats]: games in order, players of each game in order. *)
Definition all_typed_stats (game_infos : list GameInfo) : list TypedStats :=
  flat_map (fun gi => map typed_stats (player_stats (stats_of_game gi))) game_infos.

Definition stats_type_cols (game_infos : list GameInfo) : cols_map :=
  fold_left entry_or_insert (all_typed_stats game_infos) [].

(** One [write_record] call: the file (one per category) and the row. *)
Definition write := (StatsType * list str)%type.

Definition coord_names : list str := [s "year"; s "week"; s "game_id"].

(** The header of each file, written when the writers are created. *)
Definition header_writes (cols : cols_map) : list write :=
  map (fun '(t, c) => (t, coord_names ++ c)) cols.

(** [vals] of one record: the coordinates, then one pushed value per
    column. *)
Definition record_vals (gi : GameInfo) (cols : list str) (st : btmap) : list str :=
  fold_left (fun vals col =>
               vals ++ [match bt_get col st with Some v => v | None => [] end])
            cols
            [to_string (year gi); to_string (week_num gi); game_id (stats_of_game gi)].

(** The data rows of one game; [None] is a failed [unwrap] of the writer
    or of the columns. *)
Fixpoint game_writes (cols : cols_map) (gi : GameInfo)
  (ps : list PlayerGameStats) : option (list write) :=
  match ps with
  | [] => Some []
  | p :: ps' =>
      let t := stats_type (typed_stats p) in
      match cols_get t cols with
      | None => None
      | Some c =>
          match game_writes cols gi ps' with
          | None => None
          | Some w => Some ((t, record_vals gi c (stats (typed_stats p))) :: w)
          end
      end
  end.

Fixpoint data_writes (cols : cols_map) (game_infos : list GameInfo)
  : option (list write) :=
  match game_infos with
  | [] => Some []
  | gi :: gis =>
      match game_writes cols gi (player_stats (stats_of_game gi)), data_writes cols gis with
      | Some w1, Some w2 => Some (w1 ++ w2)
      | _, _ => None
      end
  end.

(** All [write_record] calls of [process_week] after parsing, in order. *)
Definition write_output (game_infos : list GameInfo) : option (list write) :=
  let cols := stats_type_cols game_infos in
  match data_writes cols game_infos with
  | Some d => Some (header_writes cols ++ d)
  | None => None
  end.

(** The rows written to the file of category [t]. *)
Definition file_of (t : StatsType) (tr : list write) : list (list str) :=
  map snd (filter (fun w => StatsType_eqb (fst w) t) tr).

(* ------------------------------------------------------------------ *)
(** ** Views used to state the properties *)

(** The records of category [t], with their game, in processing order. *)
Definition records_of (t : StatsType) (game_infos : list GameInfo)
  : list (GameInfo * btmap) :=
  flat_map (fun gi =>
              map (fun p => (gi, stats (typed_stats p)))
                  (filter (fun p => StatsType_eqb (stats_type (typed_stats p)) t)
                          (player_stats (stats_of_game gi))))
           game_infos.

(** The node whose text is the value of a cell with [data-stat] [sn]. *)
Definition value_node (sn : str) (cell : node) : option node :=
  if str_eqb sn (s "player")
  then match first_child cell with Some n => first_child n | None => None end
  else first_child cell.

(** The (key, value) writes a cell makes into the row's map, in order. *)
Definition cell_writes (cell : node) : list (str * str) :=
  match cell with
  | Element _ a _ =>
      match attr (s "data-append-csv") a with
      | Some id => [(s "player_id", id)]
      | None => []
      end ++
      match attr (s "data-stat") a with
      | Some sn =>
          match value_node sn cell with
          | Some (Text t) => [(trim sn, trim t)]
          | _ => []
          end
      | None => []
      end
  | _ => []
  end.

Definition row_writes (cells : list node) : list (str * str) :=
  flat_map cell_writes cells.

(** The value of the last write to [k], if any. *)
Definition last_write (k : str) (w : list (str * str)) : option str :=
  fold_left (fun acc kv => if str_eqb k (fst kv) then Some (snd kv) else acc) w None.

(** The column list the spec describes for a category's first record: the
    [data-stat] names of the row, in the order they first appear, without
    the identifier and name fields. *)
Fixpoint discovery_order (seen : list str) (w : list (str * str)) : list str :=
  match w with
  | [] => []
  | (k, _) :: w' =>
      if existsb (str_eqb k) seen then discovery_order seen w'
      else k :: discovery_order (k :: seen) w'
  end.

Definition spec_schema (cells : list node) : list str :=
  discovery_order [s "player_id"; s "player"] (row_writes cells).

(* ------------------------------------------------------------------ *)
(** ** Week URIs: [WEEK_NUM_REGEX], [parse_u32_capture], [parse_year],
    [parse_week_num] *)

Definition is_ascii_digit (c : N) : bool := (48 <=? c) && (c <=? 57).

(** The code points of general category Nd (Unicode 14.0), the class
    [\d] of the [regex] crate (Unicode mode, its default). *)
Definition nd_ranges : list (N * N) :=
  [(48, 57); (1632, 1641); (1776, 1785); (1984, 1993); (2406, 2415);
   (2534, 2543); (2662, 2671); (2790, 2799); (2918, 2927); (3046, 3055);
   (3174, 3183); (3302, 3311); (3430, 3439); (3558, 3567); (3664, 3673);
   (3792, 3801); (3872, 3881); (4160, 4169); (4240, 4249); (6112, 6121);
   (6160, 6169); (6470, 6479); (6608, 6617); (6784, 6793); (6800, 6809);
   (6992, 7001); (7088, 7097); (7232, 7241); (7248, 7257); (42528, 42537);
   (43216, 43225); (43264, 43273); (43472, 43481); (43504, 43513);
   (43600, 43609); (44016, 44025); (65296, 65305); (66720, 66729);
   (68912, 68921); (69734, 69743); (69872, 69881); (69942, 69951);
   (70096, 70105); (70384, 70393); (70736, 70745); (70864, 70873);
   (71248, 71257); (71360, 71369); (71472, 71481); (71904, 71913);
   (72016, 72025); (72784, 72793); (73040, 73049); (73120, 73129);
   (92768, 92777); (92864, 92873); (93008, 93017); (120782, 120831);
   (123200, 123209); (123632, 123641); (125264, 125273); (130032, 130041)].

Definition is_unicode_digit (c : N) : bool :=
  existsb (fun r => (fst r <=? c) && (c <=? snd r)) nd_ranges.

(** [u32::from_str] on the digits after an optional sign: ASCII digits
    only, checked multiplication and addition. *)
Fixpoint digits_acc (acc : N) (x : str) : option N :=
  match x with
  | [] => Some acc
  | c :: x' =>
      if is_ascii_digit c then
        let acc' := acc * 10 + (c - 48) in
        if acc' <? 2 ^ 32 then digits_acc acc' x' else None
      else None
  end.

(** [str::parse::<u32>]: empty input, a lone sign and a [-] are errors, a
    leading [+] is skipped. *)
Definition parse_u32 (x : str) : option N :=
  match x with
  | [] => None
  | [c] => if (c =? 43) || (c =? 45) then None else digits_acc 0 [c]
  | c :: x' => if c =? 43 then digits_acc 0 x' else digits_acc 0 x
  end.

(** The part of [.*/(\d{4})/week_(\d{1,2})\.htm] after [.*], with its two
    captures; [\d{1,2}] tries two digits before one. *)
Definition week_tail (u : str) : option (str * str) :=
  match u with
  | c :: u1 =>
      if c =? 47 then
        let y := firstn 4 u1 in
        if Nat.eqb (List.length y) 4 && forallb is_unicode_digit y then
          let u2 := skipn 4 u1 in
          if is_prefix (s "/week_") u2 then
            match skipn 6 u2 with
            | e1 :: e2 :: u4 =>
                if is_unicode_digit e1 && is_unicode_digit e2 && is_prefix (s ".htm") u4
                then Some (y, [e1; e2])
                else if is_unicode_digit e1 && is_prefix (s ".htm") (e2 :: u4)
                then Some (y, [e1])
                else None
            | _ => None
            end
          else None
        else None
      else None
  | [] => None
  end.

(** Length of the longest prefix without a line feed: what [.*] can
    consume. *)
Fixpoint line_prefix_len (t : str) : nat :=
  match t with
  | [] => O
  | c :: t' => if c =? 10 then O else S (line_prefix_len t')
  end.

(** A match starting at the head of [t]: greedy [.*] tries the longest
    prefix first. *)
Definition week_match_at (t : str) : option (str * str) :=
  first_some (fun j => week_tail (skipn j t)) (rev (seq 0 (S (line_prefix_len t)))).

(** [WEEK_NUM_REGEX.captures]: the leftmost match. *)
Definition week_captures (x : str) : option (str * str) :=
  first_some (fun i => week_match_at (skipn i x)) (seq 0 (S (List.length x))).

(** [parse_year] and [parse_week_num]; [None] is the panic of the final
    [unwrap]. *)
Definition parse_year (week_uri : str) : option N :=
  match week_captures week_uri with
  | Some (y, _) => parse_u32 y
  | None => None
  end.

Definition parse_week_num (week_uri : str) : option N :=
  match week_captures week_uri with
  | Some (_, w) => parse_u32 w
  | None => None
  end.

(* ------------------------------------------------------------------ *)
(** ** [process_year]: collecting the weeks' results *)

(** [join_all(process_week_futures)] then [collect::<Result<(), _>>()]:
    a panic in any week aborts the whole task; otherwise the first error
    in week order is returned. *)
Fixpoint collect_results (rs : list (outcome unit)) : outcome unit :=
  match rs with
  | [] => Ok tt
  | Ok _ :: rs' => collect_results rs'
  | Err e :: _ => Err e
  | Panic :: _ => Panic
  end.

Definition is_panic (r : outcome unit) : bool :=
  match r with Panic => true | _ => false end.

Definition process_year_result (week_results : list (outcome unit)) : outcome unit :=
  if existsb is_panic week_results then Panic
  else match collect_results week_results with
       | Err e => Err e
       | _ => Ok tt
       end.

(** Decimal value of a string of ASCII digits. *)
Definition dec_value (x : str) : N := fold_left (fun a c => a * 10 + (c - 48)) x 0.

(** [x] is [y] with some characters deleted. *)
Inductive subseq : str -> str -> Prop :=
| subseq_nil : subseq [] []
| subseq_keep : forall c x y, subseq x y -> subseq (c :: x) (c :: y)
| subseq_drop : forall c x y, subseq x y -> subseq x (c :: y).

(* ================================================================== *)
(** * Lemmas *)

(** ** Strings *)

Lemma str_eqb_eq : forall a b, str_eqb a b = true <-> a = b.
Proof.
  induction a as [|x a IH]; destruct b as [|y b]; simpl;
    try (split; congruence).
  rewrite andb_true_iff, N.eqb_eq, IH. split.
  - intros [-> ->]; reflexivity.
  - intros H; injection H; auto.
Qed.

Lemma str_eqb_refl : forall a, str_eqb a a = true.
Proof. intros a; apply str_eqb_eq; reflexivity. Qed.

Lemma str_eqb_neq : forall a b, str_eqb a b = false <-> a <> b.
Proof.
  intros a b; rewrite <- str_eqb_eq; destruct (str_eqb a b); split; congruence.
Qed.

Lemma str_compare_eq : forall a b, str_compare a b = Eq <-> a = b.
Proof.
  induction a as [|x a IH]; destruct b as [|y b]; simpl;
    try (split; congruence).
  destruct (N.compare_spec x y) as [->|Hxy|Hxy].
  - rewrite IH; split; [intros ->; reflexivity | intros H; injection H; auto].
  - split; [discriminate | intros H; injection H; intros; subst; lia].
  - split; [discriminate | intros H; injection H; intros; subst; lia].
Qed.

Lemma str_compare_antisym : forall a b, str_compare b a = CompOpp (str_compare a b).
Proof.
  induction a as [|x a IH]; destruct b as [|y b]; simpl; try reflexivity.
  rewrite (N.compare_antisym x y).
  destruct (N.compare x y); simpl; auto.
Qed.

Definition str_lt (a b : str) : Prop := str_compare a b = Lt.

Lemma str_lt_trans : forall a b c, str_lt a b -> str_lt b c -> str_lt a c.
Proof.
  unfold str_lt.
  induction a as [|x a IH]; destruct b as [|y b]; destruct c as [|z c];
    simpl; try congruence.
  destruct (N.compare_spec x y) as [Exy|Lxy|Gxy];
    destruct (N.compare_spec y z) as [Eyz|Lyz|Gyz];
    destruct (N.compare_spec x z) as [Exz|Lxz|Gxz];
    intros H1 H2; subst; try congruence; try lia.
  eauto.
Qed.

Lemma str_lt_irrefl : forall a, ~ str_lt a a.
Proof.
  unfold str_lt; intros a H.
  assert (str_compare a a = Eq) by (apply str_compare_eq; reflexivity).
  congruence.
Qed.

(** ** [BTreeMap] *)

Lemma bt_get_insert_same : forall k v m, bt_get k (bt_insert k v m) = Some v.
Proof.
  intros k v m; induction m as [|[k' v'] m IH]; simpl.
  - rewrite str_eqb_refl; reflexivity.
  - destruct (str_compare k k') eqn:Hc; simpl.
    + apply str_compare_eq in Hc; subst; rewrite str_eqb_refl; reflexivity.
    + rewrite str_eqb_refl; reflexivity.
    + destruct (str_eqb k k') eqn:He; [|exact IH].
      apply str_eqb_eq in He; subst.
      assert (str_compare k' k' = Eq) by (apply str_compare_eq; reflexivity).
      congruence.
Qed.

Lemma bt_get_insert_other : forall k k0 v m,
  k0 <> k -> bt_get k0 (bt_insert k v m) = bt_get k0 m.
Proof.
  intros k k0 v m Hne; induction m as [|[k' v'] m IH]; simpl.
  - apply str_eqb_neq in Hne; rewrite Hne; reflexivity.
  - destruct (str_compare k k') eqn:Hc; simpl.
    + apply str_compare_eq in Hc; subst.
      apply str_eqb_neq in Hne; rewrite Hne; reflexivity.
    + apply str_eqb_neq in Hne; rewrite Hne; reflexivity.
    + rewrite IH; reflexivity.
Qed.

Lemma bt_get_insert : forall k k0 v m,
  bt_get k0 (bt_insert k v m) = if str_eqb k0 k then Some v else bt_get k0 m.
Proof.
  intros k k0 v m; destruct (str_eqb k0 k) eqn:He.
  - apply str_eqb_eq in He; subst; apply bt_get_insert_same.
  - apply bt_get_insert_other; apply str_eqb_neq; exact He.
Qed.

Lemma HdRel_insert : forall x k v m,
  HdRel str_lt x (bt_keys m) -> str_lt x k ->
  HdRel str_lt x (bt_keys (bt_insert k v m)).
Proof.
  intros x k v [|[k' v'] m] Hh Hx; simpl.
  - constructor; exact Hx.
  - inversion Hh; subst.
    destruct (str_compare k k'); simpl; constructor; auto.
Qed.

Lemma bt_insert_sorted : forall k v m,
  Sorted str_lt (bt_keys m) -> Sorted str_lt (bt_keys (bt_insert k v m)).
Proof.
  intros k v m; induction m as [|[k' v'] m IH]; simpl; intros Hs.
  - repeat constructor.
  - inversion Hs as [|? ? Hs' Hh]; subst.
    destruct (str_compare k k') eqn:Hc; simpl.
    + apply str_compare_eq in Hc; subst; constructor; auto.
    + constructor; [exact Hs | constructor; exact Hc].
    + constructor; [apply IH; exact Hs' |].
      apply HdRel_insert; [exact Hh |].
      unfold str_lt; rewrite str_compare_antisym, Hc; reflexivity.
Qed.

Lemma sorted_NoDup : forall l, Sorted str_lt l -> NoDup l.
Proof.
  intros l Hs.
  apply Sorted_StronglySorted in Hs; [| intros a b c; apply str_lt_trans].
  induction Hs as [|a l Hs IH Hf]; constructor; auto.
  intros Hin; rewrite Forall_forall in Hf.
  exact (str_lt_irrefl a (Hf a Hin)).
Qed.

(** ** Cells and rows *)

Definition lw_step (k : str) (acc : option str) (kv : str * str) : option str :=
  if str_eqb k (fst kv) then Some (snd kv) else acc.

Lemma last_write_acc : forall k w acc,
  fold_left (lw_step k) w acc =
  match fold_left (lw_step k) w None with Some v => Some v | None => acc end.
Proof.
  intros k w; induction w as [|[k' v'] w IH]; intros acc; simpl.
  - reflexivity.
  - unfold lw_step at 2 4; simpl.
    destruct (str_eqb k k').
    + rewrite (IH (Some v')); destruct (fold_left (lw_step k) w None); reflexivity.
    + rewrite (IH acc); reflexivity.
Qed.

Lemma last_write_app : forall k w1 w2,
  last_write k (w1 ++ w2) =
  match last_write k w2 with Some v => Some v | None => last_write k w1 end.
Proof.
  intros k w1 w2; unfold last_write.
  change (fun acc kv => if str_eqb k (fst kv) then Some (snd kv) else acc)
    with (lw_step k).
  rewrite fold_left_app, last_write_acc; reflexivity.
Qed.

(** Applying a list of writes to a map. *)
Definition apply_writes (m : btmap) (w : list (str * str)) : btmap :=
  fold_left (fun m kv => bt_insert (fst kv) (snd kv) m) w m.

Lemma apply_writes_get : forall w m k,
  bt_get k (apply_writes m w) =
  match last_write k w with Some v => Some v | None => bt_get k m end.
Proof.
  induction w as [|[k' v'] w IH]; intros m k.
  - reflexivity.
  - change ((k', v') :: w) with ([(k', v')] ++ w).
    unfold apply_writes in *; rewrite fold_left_app, last_write_app; simpl.
    rewrite IH, bt_get_insert.
    destruct (last_write k w); [reflexivity|].
    unfold last_write; simpl; destruct (str_eqb k k'); reflexivity.
Qed.

Lemma apply_writes_sorted : forall w m,
  Sorted str_lt (bt_keys m) -> Sorted str_lt (bt_keys (apply_writes m w)).
Proof.
  induction w as [|[k v] w IH]; intros m Hs; simpl; [exact Hs|].
  apply IH, bt_insert_sorted, Hs.
Qed.

(** A cell that does not stop the row applies exactly its writes. *)
Lemma cell_step_writes : forall m c m',
  cell_step m c = Some m' -> m' = apply_writes m (cell_writes c).
Proof.
  intros m c m' H.
  destruct c as [nm a kids| t |]; unfold cell_step, cell_writes in *;
    cbv zeta in H; try (injection H; intros; subst; reflexivity).
  unfold value_node.
  destruct (attr (s "data-append-csv") a) as [id|];
    destruct (attr (s "data-stat") a) as [sn|]; try discriminate;
    destruct (if str_eqb sn (s "player")
              then match first_child (Element nm a kids) with
                   | Some n => first_child n
                   | None => None
                   end
              else first_child (Element nm a kids)) as [[| t |]|];
    injection H; intros; subst; reflexivity.
Qed.

Lemma scan_cells_writes : forall cells m m',
  scan_cells m cells = Some m' -> m' = apply_writes m (row_writes cells).
Proof.
  induction cells as [|c cs IH]; intros m m' H; simpl in H.
  - injection H; intros; subst; reflexivity.
  - destruct (cell_step m c) as [m1|] eqn:Hc; [|discriminate].
    apply cell_step_writes in Hc; subst.
    rewrite (IH _ _ H); unfold row_writes, apply_writes; simpl.
    rewrite fold_left_app; reflexivity.
Qed.

(** A cell element without [data-stat] stops the row. *)
Lemma scan_cells_stop : forall cells m,
  (exists c, In c cells /\ (exists nm a k, c = Element nm a k) /\
             node_attr (s "data-stat") c = None) ->
  scan_cells m cells = None.
Proof.
  induction cells as [|c cs IH]; intros m [c0 [Hin [[nm [a [k ->]]] Hn]]].
  - destruct Hin.
  - simpl. destruct Hin as [->|Hin].
    + simpl in Hn |- *; rewrite Hn; reflexivity.
    + destruct (cell_step m c); [|reflexivity].
      apply IH; exists (Element nm a k); eauto 6.
Qed.

Lemma In_row_writes : forall k v cells,
  In (k, v) (row_writes cells) -> exists c, In c cells /\ In (k, v) (cell_writes c).
Proof.
  intros k v cells H; unfold row_writes in H; apply in_flat_map in H; exact H.
Qed.

Lemma last_write_In : forall k w v, last_write k w = Some v -> In (k, v) w.
Proof.
  intros k w; induction w as [|[k' v'] w IH] using rev_ind; intros v H.
  - discriminate.
  - rewrite last_write_app in H; apply in_or_app.
    unfold last_write in H; simpl in H.
    destruct (str_eqb k k') eqn:He.
    + injection H; intros; subst; apply str_eqb_eq in He; subst; right; left; reflexivity.
    + left; apply IH; exact H.
Qed.

Lemma extract_row_scan : forall st row p,
  extract_row st row = Some p ->
  exists m, scan_cells bt_new (children row) = Some m /\
            bt_get (s "player_id") m = Some (player_id p) /\
            bt_get (s "player") m = Some (player_name p) /\
            typed_stats p = {| stats_type := st; stats := m |}.
Proof.
  unfold extract_row; intros st row p H.
  destruct (scan_cells bt_new (children row)) as [m|]; [|discriminate].
  destruct (bt_get (s "player_id") m) eqn:H1; [|discriminate].
  destruct (bt_get (s "player") m) eqn:H2; [|discriminate].
  injection H; intros <-; exists m; simpl; auto.
Qed.

Lemma In_extract_rows : forall st rows p,
  In p (extract_rows st rows) <-> exists r, In r rows /\ extract_row st r = Some p.
Proof.
  intros st rows p; unfold extract_rows; rewrite in_flat_map; split.
  - intros [r [Hr Hp]]; exists r; split; [exact Hr|].
    destruct (extract_row st r); simpl in Hp; [|destruct Hp].
    destruct Hp as [->|[]]; reflexivity.
  - intros [r [Hr Hp]]; exists r; split; [exact Hr|]; rewrite Hp; left; reflexivity.
Qed.

Lemma contains_cons : forall pat c x,
  contains pat (c :: x) = is_prefix pat (c :: x) || contains pat x.
Proof. reflexivity. Qed.

Lemma replace_empty_absent : forall pat x,
  contains pat x = false -> replace_empty pat x = x.
Proof.
  unfold replace_empty; intros pat x; induction x as [|c x IH]; intros H.
  - reflexivity.
  - rewrite contains_cons in H; apply orb_false_iff in H as [H1 H2].
    simpl; rewrite H1, IH by exact H2; reflexivity.
Qed.

(* ================================================================== *)
(** * Row extraction ([parse_player_stats_table]) *)

(** C5: in a data row (no cell stops it), every field taken from a
    [data-stat] cell holds the trimmed text found two levels below the
    cell for the [player] field and one level below for every other
    field; the only other source of a value is the [data-append-csv]
    identifier. A cell whose content at that level is not a text node
    adds no value for its field and does not stop the row. *)
Theorem cell_value_levels : forall row m,
  scan_cells bt_new (children row) = Some m ->
  (forall k v, bt_get k m = Some v ->
     (k = s "player_id" /\
      exists cell, In cell (children row) /\
                   node_attr (s "data-append-csv") cell = Some v)
     \/
     (exists cell sn t,
        In cell (children row) /\ node_attr (s "data-stat") cell = Some sn /\
        k = trim sn /\ v = trim t /\
        ((sn = s "player" /\
          exists a, first_child cell = Some a /\ first_child a = Some (Text t))
         \/ (sn <> s "player" /\ first_child cell = Some (Text t)))))
  /\
  (forall cell sn, In cell (children row) ->
     node_attr (s "data-stat") cell = Some sn ->
     (forall t, value_node sn cell <> Some (Text t)) ->
     forall m0, cell_step m0 cell =
       Some match node_attr (s "data-append-csv") cell with
            | Some id => bt_insert (s "player_id") id m0
            | None => m0
            end).
Proof.
  intros row m Hscan; split.
  - intros k v Hk.
    apply scan_cells_writes in Hscan; subst m.
    rewrite apply_writes_get in Hk.
    destruct (last_write k (row_writes (children row))) as [v'|] eqn:Hl;
      [|discriminate].
    injection Hk; intros <-.
    apply last_write_In, In_row_writes in Hl as [c [Hc Hw]].
    destruct c as [nm a kids| |]; unfold cell_writes in Hw;
      cbv beta iota in Hw; try (destruct Hw; fail).
    apply in_app_or in Hw as [Hw|Hw].
    + left. destruct (attr (s "data-append-csv") a) as [id|] eqn:Ha;
        [|destruct Hw].
      destruct Hw as [Hw|[]]; injection Hw; intros <- <-.
      split; [reflexivity|]; exists (Element nm a kids); auto.
    + right. destruct (attr (s "data-stat") a) as [sn|] eqn:Hs; [|contradiction].
      destruct (value_node sn (Element nm a kids)) as [[| t |]|] eqn:Hv;
        try (destruct Hw; fail).
      destruct Hw as [Hw|[]]; injection Hw; intros <- <-.
      exists (Element nm a kids), sn, t; repeat split; auto.
      unfold value_node in Hv.
      destruct (str_eqb sn (s "player")) eqn:Hp.
      * left; split; [apply str_eqb_eq; exact Hp|].
        destruct (first_child (Element nm a kids)) as [n|]; [|discriminate].
        exists n; auto.
      * right; split; [apply str_eqb_neq; exact Hp| exact Hv].
  - intros cell sn _ Hs Hnt m0.
    destruct cell as [nm a kids| |]; [|discriminate|discriminate].
    unfold node_attr in Hs |- *; unfold cell_step; cbv zeta; rewrite Hs.
    unfold value_node in Hnt.
    destruct (if str_eqb sn (s "player")
              then match first_child (Element nm a kids) with
                   | Some n => first_child n
                   | None => None
                   end
              else first_child (Element nm a kids)) as [[| t |]|];
      try reflexivity.
    exfalso; apply (Hnt t); reflexivity.
Qed.

(** C6: a row yields a record exactly when the whole row was scanned and
    the resulting map holds both [player_id] and [player]; the records of a
    table body are exactly those rows' records, the other rows adding
    nothing (and no error). *)
Theorem row_kept_iff_identity : forall st row,
  ((exists p, extract_row st row = Some p) <->
   (exists m, scan_cells bt_new (children row) = Some m /\
              bt_get (s "player_id") m <> None /\ bt_get (s "player") m <> None))
  /\ (forall rows p,
        In p (extract_rows st rows) <-> exists r, In r rows /\ extract_row st r = Some p).
Proof.
  intros st row; split; [split|].
  - intros [p Hp]; apply extract_row_scan in Hp as [m [Hm [H1 [H2 _]]]].
    exists m; rewrite H1, H2; repeat split; [exact Hm| discriminate | discriminate].
  - intros [m [Hm [H1 H2]]]; unfold extract_row; rewrite Hm.
    destruct (bt_get (s "player_id") m); [|congruence].
    destruct (bt_get (s "player") m); [|congruence].
    eexists; reflexivity.
  - intros rows p; apply In_extract_rows.
Qed.

(** C7: a row with an element cell lacking [data-stat] is stopped, yields
    no record, and removing it from the table body changes nothing. *)
Theorem non_data_row_dropped : forall st row pre post,
  (exists c, In c (children row) /\ (exists nm a k, c = Element nm a k) /\
             node_attr (s "data-stat") c = None) ->
  scan_cells bt_new (children row) = None /\ extract_row st row = None /\
  extract_rows st (pre ++ row :: post) = extract_rows st (pre ++ post).
Proof.
  intros st row pre post Hc.
  assert (Hs : scan_cells bt_new (children row) = None) by (apply scan_cells_stop; exact Hc).
  assert (He : extract_row st row = None) by (unfold extract_row; rewrite Hs; reflexivity).
  repeat split; auto.
  unfold extract_rows; rewrite !flat_map_app; simpl; rewrite He; reflexivity.
Qed.

(** C10: the keys of a record are unique (strictly ascending) and each
    field holds the value of the last write to it in the row, cells taken
    in order and, inside a cell, the [data-append-csv] identifier before
    the [data-stat] field: later writes replace earlier ones, also when a
    [data-stat] name is [player_id]. *)
Theorem row_keys_unique_last_wins : forall st row p,
  extract_row st row = Some p ->
  NoDup (bt_keys (stats (typed_stats p))) /\
  forall k, bt_get k (stats (typed_stats p)) = last_write k (row_writes (children row)).
Proof.
  intros st row p Hp.
  apply extract_row_scan in Hp as [m [Hm [_ [_ Ht]]]].
  rewrite Ht; simpl.
  apply scan_cells_writes in Hm; subst m; split.
  - apply sorted_NoDup, apply_writes_sorted; constructor.
  - intros k; rewrite apply_writes_get.
    destruct (last_write k (row_writes (children row))); reflexivity.
Qed.

(* ================================================================== *)
(** * The markup rewrite *)

(** C9: without either marker sequence the rewrite returns its input. *)
Theorem uncomment_without_markers : forall x,
  contains (nl :: s "<!--") x = false ->
  contains (nl :: s "-->") x = false ->
  uncomment x = x.
Proof.
  intros x H1 H2; unfold uncomment.
  rewrite (replace_empty_absent _ x H1), (replace_empty_absent _ x H2).
  reflexivity.
Qed.

(* ================================================================== *)
(** * Table lookup and game logs *)

Lemma parse_table_tags : forall doc a st l,
  parse_player_stats_table doc a st = Ok l ->
  Forall (fun p => stats_type (typed_stats p) = st) l.
Proof.
  unfold parse_player_stats_table; intros doc a st l H.
  destruct (select_first (sel_id a) doc) as [tbl|]; [|discriminate].
  destruct (select_first (sel_tag (s "tbody")) (children tbl)) as [b|]; [|discriminate].
  injection H; intros <-.
  apply Forall_forall; intros p Hp.
  apply In_extract_rows in Hp as [r [_ Hr]].
  apply extract_row_scan in Hr as [m [_ [_ [_ ->]]]]; reflexivity.
Qed.

Lemma parse_table_no_panic : forall doc a st,
  (forall tbl, select_first (sel_id a) doc = Some tbl ->
               select_first (sel_tag (s "tbody")) (children tbl) <> None) ->
  parse_player_stats_table doc a st <> Panic.
Proof.
  unfold parse_player_stats_table; intros doc a st H.
  destruct (select_first (sel_id a) doc) as [tbl|]; [|discriminate].
  specialize (H tbl eq_refl).
  destruct (select_first (sel_tag (s "tbody")) (children tbl)); congruence.
Qed.

(** The records [parse_game_log] keeps from the section of category [t]. *)
Definition section_records (doc : html) (t : StatsType) : list PlayerGameStats :=
  match parse_player_stats_table doc (anchor_of t) t with
  | Ok l => l
  | _ => []
  end.

Lemma section_records_tags : forall doc t,
  Forall (fun p => stats_type (typed_stats p) = t) (section_records doc t).
Proof.
  unfold section_records; intros doc t.
  destruct (parse_player_stats_table doc (anchor_of t) t) eqn:H; auto.
  apply parse_table_tags in H; exact H.
Qed.

Lemma StatsType_eqb_eq : forall a b, StatsType_eqb a b = true <-> a = b.
Proof. intros [] []; simpl; split; congruence. Qed.

Lemma filter_section : forall doc t t',
  filter (fun p => StatsType_eqb (stats_type (typed_stats p)) t) (section_records doc t') =
  if StatsType_eqb t' t then section_records doc t' else [].
Proof.
  intros doc t t'; pose proof (section_records_tags doc t') as Hf.
  induction Hf as [|p l Hp Hf IH]; simpl.
  - destruct (StatsType_eqb t' t); reflexivity.
  - rewrite Hp, IH; destruct (StatsType_eqb t' t); reflexivity.
Qed.

Lemma mandatory_section_ok : forall doc t,
  select_first (sel_id (anchor_of t)) doc <> None ->
  parse_player_stats_table doc (anchor_of t) t <> Panic ->
  parse_player_stats_table doc (anchor_of t) t = Ok (section_records doc t).
Proof.
  intros doc t Hl Hp; unfold section_records.
  destruct (parse_player_stats_table doc (anchor_of t) t) eqn:H; try congruence.
  unfold parse_player_stats_table in H.
  destruct (select_first (sel_id (anchor_of t)) doc) as [tbl|]; [|congruence].
  destruct (select_first (sel_tag (s "tbody")) (children tbl)); congruence.
Qed.

Lemma optional_section_ok : forall doc t,
  parse_player_stats_table doc (anchor_of t) t <> Panic ->
  optional_stats (parse_player_stats_table doc (anchor_of t) t) = Some (section_records doc t).
Proof.
  intros doc t Hp; unfold section_records.
  destruct (parse_player_stats_table doc (anchor_of t) t); cbn; congruence.
Qed.

Lemma bind_ok : forall (A B : Type) (o : outcome A) (f : A -> outcome B) b,
  outcome_bind o f = Ok b -> exists a, o = Ok a /\ f a = Ok b.
Proof. intros A B [a|e|] f b H; simpl in H; try discriminate; eauto. Qed.

(** C8 (as the code has it): a missing anchor gives the section-missing
    error and nothing else gives it; a located element with a [tbody]
    gives [Ok] with the records of its rows (an empty list when no row is
    a data row); a located element without a [tbody] panics
    ([.next().unwrap()]). *)
Theorem locate_table_outcomes : forall doc a st,
  (select_first (sel_id a) doc = None <->
   parse_player_stats_table doc a st = Err (missing_table_msg a)) /\
  (forall tbl body, select_first (sel_id a) doc = Some tbl ->
     select_first (sel_tag (s "tbody")) (children tbl) = Some body ->
     parse_player_stats_table doc a st = Ok (extract_rows st (children body))) /\
  (forall tbl, select_first (sel_id a) doc = Some tbl ->
     select_first (sel_tag (s "tbody")) (children tbl) = None ->
     parse_player_stats_table doc a st = Panic).
Proof.
  intros doc a st; unfold parse_player_stats_table; repeat split.
  - intros H; rewrite H; reflexivity.
  - destruct (select_first (sel_id a) doc) as [tbl|]; [|reflexivity].
    destruct (select_first (sel_tag (s "tbody")) (children tbl)); discriminate.
  - intros tbl body H1 H2; rewrite H1, H2; reflexivity.
  - intros tbl H1 H2; rewrite H1, H2; reflexivity.
Qed.

(** C3 (as the code has it): a document lacking a mandatory section never
    yields a [GameStats]. When the canonical link gives a game id, every
    mandatory section is present and every located table has a body, the
    document yields its [GameStats]; the records of each category are
    exactly those of its own table, and an absent section (only an
    optional one can be absent here) contributes none. *)
Theorem game_log_sections : forall game_id_capture,
  (forall doc t gs, mandatory t = true ->
     select_first (sel_id (anchor_of t)) doc = None ->
     parse_game_log game_id_capture doc <> Ok gs) /\
  (forall doc gid,
     game_link_id game_id_capture doc = Some gid ->
     (forall t, mandatory t = true -> select_first (sel_id (anchor_of t)) doc <> None) ->
     (forall t tbl, select_first (sel_id (anchor_of t)) doc = Some tbl ->
        select_first (sel_tag (s "tbody")) (children tbl) <> None) ->
     exists gs, parse_game_log game_id_capture doc = Ok gs /\ game_id gs = gid /\
       forall t,
         filter (fun p => StatsType_eqb (stats_type (typed_stats p)) t) (player_stats gs)
           = section_records doc t /\
         (select_first (sel_id (anchor_of t)) doc = None -> section_records doc t = [])).
Proof.
  intros cap; split.
  - intros doc t gs Hm Ht H; unfold parse_game_log in H.
    destruct (game_link_id cap doc); [|discriminate].
    apply bind_ok in H as [off [Hoff H]].
    apply bind_ok in H as [def [Hdef H]].
    apply bind_ok in H as [ret [Hret H]].
    apply bind_ok in H as [kick [Hkick _]].
    assert (He : parse_player_stats_table doc (anchor_of t) t = Err (missing_table_msg (anchor_of t)))
      by (apply locate_table_outcomes; exact Ht).
    destruct t; try discriminate Hm; cbn [anchor_of] in He; congruence.
  - intros doc gid Hg Hm Hb.
    assert (Hp : forall t, parse_player_stats_table doc (anchor_of t) t <> Panic)
      by (intros t; apply parse_table_no_panic, Hb).
    assert (Hok : forall t, mandatory t = true ->
              parse_player_stats_table doc (anchor_of t) t = Ok (section_records doc t))
      by (intros t Ht; apply mandatory_section_ok; [apply Hm, Ht | apply Hp]).
    pose proof (Hok Offense eq_refl) as H1; pose proof (Hok Defense eq_refl) as H2;
    pose proof (Hok Returns eq_refl) as H3; pose proof (Hok Kicking eq_refl) as H4;
    pose proof (optional_section_ok doc AdvPassing (Hp _)) as H5;
    pose proof (optional_section_ok doc AdvRushing (Hp _)) as H6;
    pose proof (optional_section_ok doc AdvReceiving (Hp _)) as H7;
    pose proof (optional_section_ok doc AdvDefense (Hp _)) as H8;
    cbn [anchor_of] in H1, H2, H3, H4, H5, H6, H7, H8.
    exists {| game_id := gid;
              player_stats := section_records doc Offense ++ section_records doc Defense
                ++ section_records doc Returns ++ section_records doc Kicking
                ++ section_records doc AdvPassing ++ section_records doc AdvRushing
                ++ section_records doc AdvReceiving ++ section_records doc AdvDefense |}.
    split; [|split; [reflexivity|]].
    + unfold parse_game_log; rewrite Hg, H1; cbn [outcome_bind];
        rewrite H2; cbn [outcome_bind]; rewrite H3; cbn [outcome_bind];
        rewrite H4; cbn [outcome_bind]; rewrite H5, H6, H7, H8; reflexivity.
    + intros t; split.
      * cbn [player_stats]; rewrite !filter_app, !filter_section.
        destruct t; cbn [StatsType_eqb app]; rewrite ?app_nil_r; reflexivity.
      * intros Ht; unfold section_records.
        rewrite (proj1 (proj1 (locate_table_outcomes doc (anchor_of t) t)) Ht).
        reflexivity.
Qed.

(* ================================================================== *)
(** * Column discovery and output ([process_week]) *)

Lemma cols_get_entry : forall m ts t,
  cols_get t (entry_or_insert m ts) =
  match cols_get t m with
  | Some c => Some c
  | None => if StatsType_eqb t (stats_type ts) then Some (bt_keys (stats ts)) else None
  end.
Proof.
  intros m ts t; unfold entry_or_insert.
  destruct (cols_get (stats_type ts) m) as [c0|] eqn:H0.
  - destruct (cols_get t m) as [c|] eqn:Hc; [reflexivity|].
    destruct (StatsType_eqb t (stats_type ts)) eqn:He; [|reflexivity].
    apply StatsType_eqb_eq in He; subst; congruence.
  - induction m as [|[t' c'] m IH]; simpl in *.
    + reflexivity.
    + destruct (StatsType_eqb (stats_type ts) t'); [discriminate|].
      destruct (StatsType_eqb t t'); [reflexivity| apply IH; exact H0].
Qed.

Lemma fold_cols_keep : forall l acc t c,
  cols_get t acc = Some c -> cols_get t (fold_left entry_or_insert l acc) = Some c.
Proof.
  induction l as [|ts l IH]; intros acc t c H; simpl; [exact H|].
  apply IH; rewrite cols_get_entry, H; reflexivity.
Qed.

Lemma fold_cols_first : forall l acc t c,
  cols_get t (fold_left entry_or_insert l acc) = Some c ->
  cols_get t acc = Some c \/
  (cols_get t acc = None /\
   exists pre ts post, l = pre ++ ts :: post /\
     Forall (fun x => stats_type x <> t) pre /\ stats_type ts = t /\
     c = bt_keys (stats ts)).
Proof.
  induction l as [|ts l IH]; intros acc t c H; simpl in H; [left; exact H|].
  apply IH in H as [H|[Hn [pre [ts' [post [-> [Hf [Ht ->]]]]]]]];
    rewrite cols_get_entry in *.
  - destruct (cols_get t acc) as [c0|] eqn:Ha; [left; exact H|].
    right; split; [reflexivity|].
    destruct (StatsType_eqb t (stats_type ts)) eqn:He; [|discriminate].
    injection H; intros <-; apply StatsType_eqb_eq in He.
    exists [], ts, l; auto.
  - destruct (cols_get t acc) as [c0|]; [discriminate|].
    right; split; [reflexivity|].
    destruct (StatsType_eqb t (stats_type ts)) eqn:He; [discriminate|].
    exists (ts :: pre), ts', post; repeat split; auto.
    constructor; [|exact Hf].
    intros E; rewrite E, (proj2 (StatsType_eqb_eq t t) eq_refl) in He; discriminate.
Qed.

Lemma fold_cols_present : forall l acc ts,
  In ts l -> cols_get (stats_type ts) (fold_left entry_or_insert l acc) <> None.
Proof.
  induction l as [|ts' l IH]; intros acc ts Hin; [destruct Hin|]; simpl.
  destruct Hin as [->|Hin]; [|apply IH, Hin].
  destruct (cols_get (stats_type ts) (entry_or_insert acc ts)) as [c|] eqn:H.
  - rewrite (fold_cols_keep _ _ _ _ H); discriminate.
  - rewrite cols_get_entry, (proj2 (StatsType_eqb_eq _ _) eq_refl) in H.
    destruct (cols_get (stats_type ts) acc); discriminate.
Qed.

Lemma cols_get_notin : forall t m, cols_get t m = None -> ~ In t (map fst m).
Proof.
  intros t m; induction m as [|[t' c] m IH]; simpl; intros H; [auto|].
  destruct (StatsType_eqb t t') eqn:He; [discriminate|].
  intros [E|Hin]; [subst; rewrite (proj2 (StatsType_eqb_eq t t) eq_refl) in He; discriminate|].
  exact (IH H Hin).
Qed.

Lemma fold_cols_nodup : forall l acc,
  NoDup (map fst acc) -> NoDup (map fst (fold_left entry_or_insert l acc)).
Proof.
  induction l as [|ts l IH]; intros acc H; simpl; [exact H|].
  apply IH; unfold entry_or_insert.
  destruct (cols_get (stats_type ts) acc) eqn:Hc; [exact H|].
  rewrite map_app; simpl.
  apply NoDup_app; [exact H | repeat constructor; simpl; tauto |].
  intros x Hx [E|[]]; subst; exact (cols_get_notin _ _ Hc Hx).
Qed.

Lemma file_of_app : forall t w1 w2, file_of t (w1 ++ w2) = file_of t w1 ++ file_of t w2.
Proof. intros; unfold file_of; rewrite filter_app, map_app; reflexivity. Qed.

Lemma file_of_cons : forall t w ws,
  file_of t (w :: ws) = (if StatsType_eqb (fst w) t then [snd w] else []) ++ file_of t ws.
Proof. intros t w ws; unfold file_of; simpl; destruct (StatsType_eqb (fst w) t); reflexivity. Qed.

Lemma cols_get_In : forall t cols c, cols_get t cols = Some c -> In t (map fst cols).
Proof.
  intros t cols; induction cols as [|[t' c'] cols IH]; intros c H; simpl in *; [discriminate|].
  destruct (StatsType_eqb t t') eqn:He; [left; symmetry; apply StatsType_eqb_eq; exact He|].
  right; eapply IH; exact H.
Qed.

Lemma file_of_headers : forall t cols,
  NoDup (map fst cols) ->
  file_of t (header_writes cols) =
  match cols_get t cols with Some c => [coord_names ++ c] | None => [] end.
Proof.
  intros t cols; induction cols as [|[t' c] cols IH]; intros Hd; [reflexivity|].
  inversion Hd as [|? ? Hn Hd']; subst.
  unfold header_writes; cbn [map]; fold (header_writes cols).
  rewrite file_of_cons, IH by exact Hd'; cbn [fst snd cols_get].
  destruct (StatsType_eqb t' t) eqn:He1; destruct (StatsType_eqb t t') eqn:He2.
  - apply StatsType_eqb_eq in He1; subst.
    destruct (cols_get t cols) eqn:Hc; [|reflexivity].
    exfalso; apply Hn; eapply cols_get_In; exact Hc.
  - apply StatsType_eqb_eq in He1; subst; rewrite (proj2 (StatsType_eqb_eq t t) eq_refl) in He2; discriminate.
  - apply StatsType_eqb_eq in He2; subst; rewrite (proj2 (StatsType_eqb_eq t' t') eq_refl) in He1; discriminate.
  - reflexivity.
Qed.

Definition coords (gi : GameInfo) : list str :=
  [to_string (year gi); to_string (week_num gi); game_id (stats_of_game gi)].

Definition cell_or_empty (st : btmap) (col : str) : str :=
  match bt_get col st with Some v => v | None => [] end.

Lemma record_vals_eq : forall gi cols st,
  record_vals gi cols st = coords gi ++ map (cell_or_empty st) cols.
Proof.
  intros gi cols st; unfold record_vals; fold (coords gi).
  generalize (coords gi); induction cols as [|c cols IH]; intros acc; simpl.
  - rewrite app_nil_r; reflexivity.
  - rewrite IH, <- app_assoc; reflexivity.
Qed.

Lemma game_writes_file : forall cols gi ps,
  (forall p, In p ps -> cols_get (stats_type (typed_stats p)) cols <> None) ->
  exists w, game_writes cols gi ps = Some w /\
    forall t c, cols_get t cols = Some c ->
      file_of t w = map (fun p => record_vals gi c (stats (typed_stats p)))
                        (filter (fun p => StatsType_eqb (stats_type (typed_stats p)) t) ps).
Proof.
  intros cols gi; induction ps as [|p ps IH]; intros Hc.
  - exists []; split; [reflexivity| intros; reflexivity].
  - destruct IH as [w [Hw Hf]]; [intros q Hq; apply Hc; right; exact Hq|].
    destruct (cols_get (stats_type (typed_stats p)) cols) as [c0|] eqn:H0;
      [| exfalso; apply (Hc p); [left; reflexivity | exact H0]].
    exists ((stats_type (typed_stats p), record_vals gi c0 (stats (typed_stats p))) :: w).
    split; [simpl; rewrite H0, Hw; reflexivity|].
    intros t c Ht; rewrite file_of_cons, (Hf t c Ht); cbn [fst snd filter].
    destruct (StatsType_eqb (stats_type (typed_stats p)) t) eqn:He; [|reflexivity].
    apply StatsType_eqb_eq in He; rewrite He in H0; rewrite H0 in Ht.
    injection Ht; intros ->; reflexivity.
Qed.

Lemma data_writes_file : forall cols games,
  (forall ts, In ts (all_typed_stats games) -> cols_get (stats_type ts) cols <> None) ->
  exists d, data_writes cols games = Some d /\
    forall t c, cols_get t cols = Some c ->
      file_of t d = map (fun gm => record_vals (fst gm) c (snd gm)) (records_of t games).
Proof.
  intros cols; induction games as [|gi gis IH]; intros Hc.
  - exists []; split; [reflexivity| intros; reflexivity].
  - assert (Hall : all_typed_stats (gi :: gis) =
                   map typed_stats (player_stats (stats_of_game gi)) ++ all_typed_stats gis)
      by reflexivity.
    destruct IH as [d2 [Hd2 Hf2]].
    { intros ts Hts; apply Hc; rewrite Hall; apply in_or_app; right; exact Hts. }
    destruct (game_writes_file cols gi (player_stats (stats_of_game gi))) as [w1 [Hw1 Hf1]].
    { intros p Hp; apply Hc; rewrite Hall; apply in_or_app; left; apply in_map; exact Hp. }
    exists (w1 ++ d2); split; [simpl; rewrite Hw1, Hd2; reflexivity|].
    intros t c Ht; rewrite file_of_app, (Hf1 t c Ht), (Hf2 t c Ht).
    unfold records_of; cbn [flat_map]; rewrite map_app, map_map; reflexivity.
Qed.

Lemma bt_get_In : forall k m v, bt_get k m = Some v -> In k (bt_keys m).
Proof.
  intros k m; induction m as [|[k' v'] m IH]; intros v H; simpl in *; [discriminate|].
  destruct (str_eqb k k') eqn:He; [left; symmetry; apply str_eqb_eq; exact He|].
  right; eapply IH; exact H.
Qed.

Lemma extract_row_sorted : forall st row p,
  extract_row st row = Some p -> Sorted str_lt (bt_keys (stats (typed_stats p))).
Proof.
  intros st row p Hp; apply extract_row_scan in Hp as [m [Hm [_ [_ ->]]]]; simpl.
  apply scan_cells_writes in Hm; subst m.
  apply apply_writes_sorted; constructor.
Qed.

(** C1 (as the code has it): the columns of a category are the complete
    key list of the first record of that category in processing order
    (games in order, sections in parse order, rows in order): they include
    [player_id] and [player] and come in the ascending order of the
    record's [BTreeMap], not in the order the cells were met. *)
Theorem schema_is_first_record_keys : forall game_infos t cols,
  cols_get t (stats_type_cols game_infos) = Some cols ->
  (forall ts, In ts (all_typed_stats game_infos) ->
     exists row p, extract_row (stats_type ts) row = Some p /\ typed_stats p = ts) ->
  exists pre ts post,
    all_typed_stats game_infos = pre ++ ts :: post /\
    Forall (fun x => stats_type x <> t) pre /\ stats_type ts = t /\
    cols = bt_keys (stats ts) /\
    Sorted str_lt cols /\ In (s "player_id") cols /\ In (s "player") cols.
Proof.
  intros game_infos t cols H Hrec.
  apply fold_cols_first in H as [H|[_ [pre [ts [post [Hl [Hf [Ht ->]]]]]]]];
    [discriminate|].
  exists pre, ts, post; do 4 (split; [auto|]).
  destruct (Hrec ts) as [row [p [Hp Hpt]]];
    [rewrite Hl; apply in_or_app; right; left; reflexivity|].
  pose proof (extract_row_sorted _ _ _ Hp) as Hs.
  apply extract_row_scan in Hp as [m [_ [H1 [H2 Htp]]]].
  assert (Hm : stats ts = m) by (rewrite <- Hpt, Htp; reflexivity).
  rewrite Hpt, Hm in Hs; rewrite Hm.
  split; [exact Hs|]; split; eapply bt_get_In; eassumption.
Qed.

(** C2: once a category has columns they stay the same whatever records
    come later, and a row depends only on the record's values for those
    columns: fields outside them never reach the output. *)
Theorem schema_frozen : forall g1 g2 t cols,
  cols_get t (stats_type_cols g1) = Some cols ->
  cols_get t (stats_type_cols (g1 ++ g2)) = Some cols /\
  (forall gi m m', (forall k, In k cols -> bt_get k m = bt_get k m') ->
     record_vals gi cols m = record_vals gi cols m').
Proof.
  intros g1 g2 t cols H; split.
  - unfold stats_type_cols, all_typed_stats in *.
    rewrite flat_map_app, fold_left_app; apply fold_cols_keep; exact H.
  - intros gi m m' Hk; rewrite !record_vals_eq; f_equal.
    apply map_ext_in; intros k Hin; unfold cell_or_empty; rewrite Hk by exact Hin; reflexivity.
Qed.

(** C4: the file of a category with columns [cols] holds the header
    [year, week, game_id] followed by [cols] once, first, then one row per
    record of the category in processing order: the three coordinates,
    then for each column the record's value or the empty string. *)
Theorem output_file_rows : forall game_infos t cols,
  cols_get t (stats_type_cols game_infos) = Some cols ->
  exists tr, write_output game_infos = Some tr /\
    file_of t tr =
      (coord_names ++ cols) ::
      map (fun gm => coords (fst gm) ++ map (cell_or_empty (snd gm)) cols)
          (records_of t game_infos).
Proof.
  intros game_infos t cols H.
  destruct (data_writes_file (stats_type_cols game_infos) game_infos) as [d [Hd Hf]].
  { intros ts Hts; apply fold_cols_present; exact Hts. }
  exists (header_writes (stats_type_cols game_infos) ++ d).
  split; [unfold write_output; rewrite Hd; reflexivity|].
  rewrite file_of_app, file_of_headers, H, (Hf t cols H).
  - cbn [app]; f_equal; apply map_ext; intros gm; apply record_vals_eq.
  - apply fold_cols_nodup; constructor.
Qed.

(* ================================================================== *)
(** * Decimal numbers: [u32::to_string] and [str::parse::<u32>] *)

Lemma dec_digits_app : forall f n l, dec_digits f n l = dec_digits f n [] ++ l.
Proof.
  induction f as [|f IH]; intros n l; [reflexivity|].
  cbn [dec_digits]. destruct (n <? 10); [reflexivity|].
  rewrite (IH _ ((48 + n mod 10) :: l)), (IH _ [48 + n mod 10]).
  rewrite <- app_assoc. reflexivity.
Qed.

Lemma dec_digits_S : forall f n acc,
  dec_digits (S f) n acc =
  if n <? 10 then (48 + n mod 10) :: acc
  else dec_digits f (n / 10) ((48 + n mod 10) :: acc).
Proof. reflexivity. Qed.

Lemma dec_value_snoc : forall x c,
  dec_value (x ++ [c]) = dec_value x * 10 + (c - 48).
Proof. intros x c. unfold dec_value. rewrite fold_left_app. reflexivity. Qed.

Lemma dec_digits_value : forall f n,
  n < 10 ^ N.of_nat (S f) -> dec_value (dec_digits (S f) n []) = n.
Proof.
  induction f as [|f IH]; intros n Hn.
  - cbn [dec_digits]. replace (n <? 10) with true by (symmetry; apply N.ltb_lt; exact Hn).
    unfold dec_value; cbn [fold_left].
    rewrite N.mod_small by exact Hn. lia.
  - rewrite dec_digits_S. destruct (n <? 10) eqn:E.
    + apply N.ltb_lt in E. unfold dec_value; cbn [fold_left].
      rewrite N.mod_small by exact E. lia.
    + rewrite dec_digits_app, dec_value_snoc, IH.
      * pose proof (N.div_mod n 10 ltac:(lia)). clear -H.
        generalize dependent (n mod 10). generalize dependent (n / 10). lia.
      * apply N.Div0.div_lt_upper_bound.
        rewrite Nat2N.inj_succ, N.pow_succ_r' in Hn. exact Hn.
Qed.

Lemma dec_digits_ascii : forall f n l,
  forallb is_ascii_digit l = true -> forallb is_ascii_digit (dec_digits f n l) = true.
Proof.
  induction f as [|f IH]; intros n l Hl; [exact Hl|].
  assert (Hd : is_ascii_digit (48 + n mod 10) = true).
  { unfold is_ascii_digit. pose proof (N.mod_lt n 10 ltac:(lia)).
    generalize dependent (n mod 10). intros r Hr.
    apply andb_true_intro; split; apply N.leb_le; lia. }
  rewrite dec_digits_S. destruct (n <? 10); cbn [forallb]; [rewrite Hd; exact Hl|].
  apply IH. cbn [forallb]. rewrite Hd. exact Hl.
Qed.

Lemma dec_digits_nonempty : forall f n l, dec_digits (S f) n l <> [].
Proof.
  intros f n l. rewrite dec_digits_app, dec_digits_S.
  destruct (n <? 10); [discriminate|]. rewrite dec_digits_app.
  rewrite <- app_assoc. destruct (dec_digits f (n / 10) []); discriminate.
Qed.

Lemma pos_lt_pow2_size : forall p, Npos p < 2 ^ N.of_nat (Pos.size_nat p).
Proof.
  induction p as [p IH|p IH|]; cbn [Pos.size_nat].
  - rewrite Nat2N.inj_succ, N.pow_succ_r'. change (Npos p~1) with (2 * Npos p + 1). lia.
  - rewrite Nat2N.inj_succ, N.pow_succ_r'. change (Npos p~0) with (2 * Npos p). lia.
  - cbn. lia.
Qed.

Lemma size_nat_bound : forall n, n < 10 ^ N.of_nat (S (N.size_nat n)).
Proof.
  intros n. rewrite Nat2N.inj_succ, N.pow_succ_r'.
  assert (H : n < 10 ^ N.of_nat (N.size_nat n)).
  { destruct n as [|p]; [cbn; lia|].
    eapply N.lt_le_trans; [apply pos_lt_pow2_size|].
    apply N.pow_le_mono_l. lia. }
  lia.
Qed.

Lemma dv_ge : forall x a, a <= fold_left (fun a c => a * 10 + (c - 48)) x a.
Proof.
  induction x as [|c x IH]; intros a; cbn [fold_left]; [lia|].
  specialize (IH (a * 10 + (c - 48))). lia.
Qed.

Lemma digits_acc_app : forall x a l,
  a < 2 ^ 32 -> forallb is_ascii_digit x = true ->
  digits_acc a (x ++ l) =
  let v := fold_left (fun a c => a * 10 + (c - 48)) x a in
  if v <? 2 ^ 32 then digits_acc v l else None.
Proof.
  induction x as [|c x IH]; intros a l Ha Hx; cbn zeta.
  - cbn [fold_left app]. replace (a <? 2 ^ 32) with true
      by (symmetry; apply N.ltb_lt; exact Ha). reflexivity.
  - cbn [forallb] in Hx. apply andb_prop in Hx as [Hc Hx].
    cbn [app digits_acc fold_left]. rewrite Hc.
    destruct (a * 10 + (c - 48) <? 2 ^ 32) eqn:E.
    + apply N.ltb_lt in E. rewrite (IH _ _ E Hx). reflexivity.
    + apply N.ltb_ge in E.
      pose proof (dv_ge x (a * 10 + (c - 48))).
      replace (fold_left (fun a c => a * 10 + (c - 48)) x (a * 10 + (c - 48)) <? 2 ^ 32)
        with false by (symmetry; apply N.ltb_ge; lia).
      reflexivity.
Qed.

(** X2: [str::parse::<u32>] reads back what [u32::to_string] writes, and
    rejects exactly the values beyond [u32::MAX]. *)
Theorem parse_u32_to_string : forall n,
  parse_u32 (to_string n) = if n <? 2 ^ 32 then Some n else None.
Proof.
  intros n. unfold to_string.
  pose proof (dec_digits_value _ _ (size_nat_bound n)) as Hv.
  pose proof (dec_digits_ascii (S (N.size_nat n)) n [] eq_refl) as Ha.
  pose proof (dec_digits_nonempty (N.size_nat n) n []) as Hne.
  assert (Hp : parse_u32 (dec_digits (S (N.size_nat n)) n []) =
               digits_acc 0 (dec_digits (S (N.size_nat n)) n [])).
  { destruct (dec_digits (S (N.size_nat n)) n []) as [|c [|c' x]] eqn:E;
      [congruence| |];
      cbn [forallb] in Ha; apply andb_prop in Ha as [Hc _];
      unfold is_ascii_digit in Hc; apply andb_prop in Hc as [H1 H2];
      apply N.leb_le in H1; apply N.leb_le in H2;
      unfold parse_u32;
      replace (c =? 43) with false by (symmetry; apply N.eqb_neq; lia);
      [replace (c =? 45) with false by (symmetry; apply N.eqb_neq; lia)|];
      reflexivity. }
  rewrite Hp, <- (app_nil_r (dec_digits _ n [])), digits_acc_app by (auto; lia).
  cbn zeta. unfold dec_value in Hv. rewrite Hv. reflexivity.
Qed.

Lemma digits_acc_some : forall x a n,
  a < 2 ^ 32 -> digits_acc a x = Some n ->
  forallb is_ascii_digit x = true /\
  fold_left (fun a c => a * 10 + (c - 48)) x a = n /\ n < 2 ^ 32.
Proof.
  induction x as [|c x IH]; intros a n Ha H; cbn [digits_acc] in H.
  - injection H as <-. auto.
  - destruct (is_ascii_digit c) eqn:Hc; [|discriminate].
    destruct (a * 10 + (c - 48) <? 2 ^ 32) eqn:E; [|discriminate].
    apply N.ltb_lt in E. destruct (IH _ _ E H) as (H1 & H2 & H3).
    cbn [forallb fold_left]. rewrite Hc. auto.
Qed.

Lemma is_ascii_digit_sign : forall c,
  is_ascii_digit c = true -> (c =? 43) = false /\ (c =? 45) = false.
Proof.
  intros c Hc. unfold is_ascii_digit in Hc. apply andb_prop in Hc as [H1 H2].
  apply N.leb_le in H1. split; apply N.eqb_neq; lia.
Qed.

Lemma parse_u32_digits_acc : forall x,
  x <> [] -> forallb is_ascii_digit x = true ->
  parse_u32 x = digits_acc 0 x /\ parse_u32 (43 :: x) = digits_acc 0 x.
Proof.
  intros [|c x] Hne Hx; [congruence|].
  cbn [forallb] in Hx. apply andb_prop in Hx as [Hc _].
  destruct (is_ascii_digit_sign c Hc) as [H43 H45].
  unfold parse_u32. rewrite H43. destruct x; [rewrite H45|]; auto.
Qed.

Lemma digits_acc_dec_value : forall x,
  forallb is_ascii_digit x = true ->
  digits_acc 0 x = if dec_value x <? 2 ^ 32 then Some (dec_value x) else None.
Proof.
  intros x Hx. rewrite <- (app_nil_r x), digits_acc_app by (auto; lia).
  rewrite app_nil_r. reflexivity.
Qed.

(** X1: [str::parse::<u32>], as [parse_u32_capture] applies it, accepts
    exactly a non-empty run of ASCII digits, optionally after one [+],
    whose decimal value fits in a [u32]; leading zeros are allowed. *)
Theorem parse_u32_accepts : forall x n,
  parse_u32 x = Some n <->
  exists d, d <> [] /\ forallb is_ascii_digit d = true /\
            (x = d \/ x = 43 :: d) /\ dec_value d = n /\ n < 2 ^ 32.
Proof.
  intros x n. split.
  - intros H.
    assert (Hd : forall d, d <> [] -> digits_acc 0 d = Some n ->
              d <> [] /\ forallb is_ascii_digit d = true /\ dec_value d = n /\ n < 2 ^ 32).
    { intros d Hne Hd. destruct (digits_acc_some d 0 n ltac:(lia) Hd) as (H1 & H2 & H3).
      auto. }
    destruct x as [|c [|c' x]]; unfold parse_u32 in H; [discriminate| |].
    + destruct ((c =? 43) || (c =? 45)); [discriminate|].
      destruct (Hd [c] ltac:(discriminate) H) as (? & ? & ? & ?).
      exists [c]. auto.
    + destruct (c =? 43) eqn:E.
      * apply N.eqb_eq in E. subst c.
        destruct (Hd (c' :: x) ltac:(discriminate) H) as (? & ? & ? & ?).
        exists (c' :: x). auto.
      * destruct (Hd (c :: c' :: x) ltac:(discriminate) H) as (? & ? & ? & ?).
        exists (c :: c' :: x). auto.
  - intros (d & Hne & Hdig & Hx & Hv & Hn).
    destruct (parse_u32_digits_acc d Hne Hdig) as [P1 P2].
    assert (Hacc : digits_acc 0 d = Some n).
    { rewrite digits_acc_dec_value by exact Hdig. rewrite Hv.
      replace (n <? 2 ^ 32) with true by (symmetry; apply N.ltb_lt; exact Hn).
      reflexivity. }
    destruct Hx as [-> | ->]; congruence.
Qed.

(* ================================================================== *)
(** * Week URIs *)

Lemma first_some_app : forall (A B : Type) (f : A -> option B) l1 l2,
  first_some f (l1 ++ l2) =
  match first_some f l1 with Some v => Some v | None => first_some f l2 end.
Proof.
  intros A B f l1 l2. induction l1 as [|x l1 IH]; [reflexivity|].
  cbn [app first_some]. destruct (f x); [reflexivity|exact IH].
Qed.

Lemma first_some_none : forall (A B : Type) (f : A -> option B) l,
  (forall x, In x l -> f x = None) -> first_some f l = None.
Proof.
  intros A B f l H. induction l as [|x l IH]; [reflexivity|].
  cbn [first_some]. rewrite (H x (or_introl eq_refl)). apply IH.
  intros y Hy. apply H. right. exact Hy.
Qed.

Lemma line_prefix_len_no_nl : forall t,
  (forall c, In c t -> c <> 10) -> line_prefix_len t = List.length t.
Proof.
  induction t as [|c t IH]; intros H; [reflexivity|].
  cbn [line_prefix_len List.length].
  replace (c =? 10) with false by (symmetry; apply N.eqb_neq, H; left; reflexivity).
  f_equal. apply IH. intros d Hd. apply H. right. exact Hd.
Qed.

Lemma skipn_head_In : forall (A : Type) k (l : list A) c r,
  skipn k l = c :: r -> In c l.
Proof.
  intros A k l c r H. assert (Hin : In c (skipn k l)) by (rewrite H; left; reflexivity).
  rewrite <- (firstn_skipn k l). apply in_or_app. right. exact Hin.
Qed.

Lemma week_tail_no_slash : forall u,
  (forall c r, u = c :: r -> c <> 47) -> week_tail u = None.
Proof.
  intros [|c u] H; [reflexivity|]. unfold week_tail.
  replace (c =? 47) with false by (symmetry; apply N.eqb_neq; eapply H; reflexivity).
  reflexivity.
Qed.

Lemma ascii_digit_range : forall c, is_ascii_digit c = true -> 48 <= c <= 57.
Proof.
  intros c H. unfold is_ascii_digit in H. apply andb_prop in H as [H1 H2].
  apply N.leb_le in H1. apply N.leb_le in H2. lia.
Qed.

Lemma ascii_digit_unicode : forall c, is_ascii_digit c = true -> is_unicode_digit c = true.
Proof.
  intros c H. unfold is_unicode_digit, nd_ranges. cbn [existsb fst snd].
  unfold is_ascii_digit in H. rewrite H. reflexivity.
Qed.

Lemma forallb_In : forall (A : Type) (f : A -> bool) l x,
  forallb f l = true -> In x l -> f x = true.
Proof. intros A f l x H Hx. rewrite forallb_forall in H. auto. Qed.

Lemma dec_value_bound : forall x a,
  forallb is_ascii_digit x = true ->
  fold_left (fun a c => a * 10 + (c - 48)) x a < (a + 1) * 10 ^ N.of_nat (List.length x).
Proof.
  induction x as [|c x IH]; intros a Hx; cbn [fold_left List.length].
  - cbn. lia.
  - cbn [forallb] in Hx. apply andb_prop in Hx as [Hc Hx].
    apply ascii_digit_range in Hc.
    eapply N.lt_le_trans; [apply IH, Hx|].
    rewrite Nat2N.inj_succ, N.pow_succ_r'.
    assert (a * 10 + (c - 48) + 1 <= (a + 1) * 10) by lia.
    rewrite N.mul_assoc. apply N.mul_le_mono_r. exact H.
Qed.

Lemma parse_u32_small : forall x,
  x <> [] -> forallb is_ascii_digit x = true -> (List.length x <= 9)%nat ->
  parse_u32 x = Some (dec_value x).
Proof.
  intros x Hne Hx Hl. destruct (parse_u32_digits_acc x Hne Hx) as [-> _].
  rewrite digits_acc_dec_value by exact Hx.
  replace (dec_value x <? 2 ^ 32) with true; [reflexivity|].
  symmetry. apply N.ltb_lt. pose proof (dec_value_bound x 0 Hx) as Hb.
  unfold dec_value. eapply N.lt_le_trans; [exact Hb|].
  apply N.le_trans with (10 ^ 9); [|cbn; lia].
  rewrite N.mul_1_l. apply N.pow_le_mono_r; lia.
Qed.

Section WeekUri.

Variables (p y w : str).
Hypothesis Hp : forall c, In c p -> c <> 10.
Hypothesis Hy : List.length y = 4%nat.
Hypothesis Hyd : forallb is_ascii_digit y = true.
Hypothesis Hw : (List.length w = 1 \/ List.length w = 2)%nat.
Hypothesis Hwd : forallb is_ascii_digit w = true.

Let z := s "/week_" ++ w ++ s ".htm".
Let t := p ++ 47 :: y ++ z.

Lemma week_z_chars : forall c, In c (s "week_" ++ w ++ s ".htm") -> c <> 47 /\ c <> 10.
Proof.
  intros c Hc. apply in_app_iff in Hc as [Hc|Hc]; [|apply in_app_iff in Hc as [Hc|Hc]].
  - cbn in Hc. intuition (subst; discriminate).
  - pose proof (forallb_In _ _ _ _ Hwd Hc) as Hd.
    apply ascii_digit_range in Hd. lia.
  - cbn in Hc. intuition (subst; discriminate).
Qed.

Lemma week_tail_later : forall m, week_tail (skipn m (y ++ z)) = None.
Proof.
  intros m. destruct (PeanoNat.Nat.lt_total m 4) as [Hlt|[Heq|Hgt]].
  - apply week_tail_no_slash. intros c r Hm. rewrite skipn_app in Hm.
    destruct (skipn m y) as [|c' r'] eqn:E.
    + apply (f_equal (@List.length N)) in E. rewrite length_skipn in E. cbn in E. lia.
    + injection Hm as <- _. apply skipn_head_In in E.
      pose proof (forallb_In _ _ _ _ Hyd E) as Hd. apply ascii_digit_range in Hd. lia.
  - (* the slash of [/week_] is followed by a letter, not a digit *)
    subst m. rewrite skipn_app, skipn_all2 by lia. rewrite Hy. reflexivity.
  - apply week_tail_no_slash. intros c r Hm.
    rewrite skipn_app, skipn_all2 in Hm by lia. rewrite Hy in Hm. cbn [app] in Hm.
    replace (m - 4)%nat with (S (m - 5)) in Hm by lia.
    unfold z in Hm. cbn [s app skipn] in Hm.
    apply skipn_head_In in Hm. apply week_z_chars in Hm. tauto.
Qed.

Lemma w_shape : (exists a, w = [a] /\ is_ascii_digit a = true) \/
                (exists a b, w = [a; b] /\ is_ascii_digit a = true /\ is_ascii_digit b = true).
Proof.
  generalize Hw Hwd. clear. intros Hw Hwd.
  destruct w as [|a [|b [|d w']]]; cbn [List.length] in Hw; [lia| | |lia];
    cbn [forallb] in Hwd; rewrite ?andb_true_r in Hwd.
  - left. eauto.
  - right. apply andb_prop in Hwd as [Ha Hb]. eauto.
Qed.

Lemma week_tail_here : week_tail (47 :: y ++ z) = Some (y, w).
Proof.
  assert (Hf : firstn 4 (y ++ z) = y)
    by (rewrite firstn_app, firstn_all2, Hy by lia; apply app_nil_r).
  assert (Hs : skipn 4 (y ++ z) = z)
    by (rewrite skipn_app, skipn_all2, Hy by lia; reflexivity).
  assert (Hu : forallb is_unicode_digit y = true).
  { apply forallb_forall. intros c Hc. apply ascii_digit_unicode.
    exact (forallb_In _ _ _ _ Hyd Hc). }
  unfold week_tail. rewrite Hf, Hs, Hy, Hu. cbn [N.eqb Pos.eqb Nat.eqb andb].
  unfold z. cbn [s app is_prefix skipn N_of_ascii N.eqb Pos.eqb andb].
  destruct w_shape as [(a & -> & Ha)|(a & b & -> & Ha & Hb)].
  - cbn [app]. rewrite (ascii_digit_unicode a Ha). reflexivity.
  - cbn [app]. rewrite (ascii_digit_unicode a Ha), (ascii_digit_unicode b Hb).
    reflexivity.
Qed.

Lemma t_no_nl : forall c, In c t -> c <> 10.
Proof.
  intros c Hc. unfold t in Hc. apply in_app_iff in Hc as [Hc|[<-|Hc]].
  - exact (Hp c Hc).
  - discriminate.
  - apply in_app_iff in Hc as [Hc|Hc].
    + pose proof (forallb_In _ _ _ _ Hyd Hc) as Hd. apply ascii_digit_range in Hd. lia.
    + unfold z in Hc. destruct Hc as [<-|Hc]; [discriminate|].
      apply week_z_chars in Hc. tauto.
Qed.

Lemma week_match_t : week_match_at t = Some (y, w).
Proof.
  unfold week_match_at. rewrite (line_prefix_len_no_nl t t_no_nl).
  set (k := List.length p).
  assert (HL : List.length t = (k + S (List.length (y ++ z)))%nat)
    by (unfold t, k; rewrite length_app; reflexivity).
  rewrite HL.
  replace (S (k + S (List.length (y ++ z)))) with (S k + S (List.length (y ++ z)))%nat by lia.
  rewrite seq_app, rev_app_distr, first_some_app, first_some_none.
  - rewrite seq_S, rev_app_distr. cbn [rev app first_some].
    unfold t. rewrite skipn_app, skipn_all2 by lia.
    replace (0 + k - List.length p)%nat with O by lia.
    cbn [app skipn]. rewrite week_tail_here. reflexivity.
  - intros j Hj. apply in_rev, in_seq in Hj.
    unfold t. rewrite skipn_app, skipn_all2 by lia.
    replace (j - List.length p)%nat with (S (j - S k)) by lia.
    apply week_tail_later.
Qed.

Lemma week_captures_t : week_captures t = Some (y, w).
Proof. unfold week_captures. cbn [seq first_some skipn]. rewrite week_match_t. reflexivity. Qed.

End WeekUri.

(** X3: for a week URI of the site's form, [.../YYYY/week_W.htm] with a
    four-digit year and a one- or two-digit week, [parse_year] and
    [parse_week_num] return the decimal values of the two numbers: the
    greedy [.*] stops at the slash before the year, whatever the prefix
    (without a line break) contains. *)
Theorem week_uri_parse : forall p y w,
  (forall c, In c p -> c <> 10) ->
  List.length y = 4%nat -> forallb is_ascii_digit y = true ->
  (List.length w = 1 \/ List.length w = 2)%nat -> forallb is_ascii_digit w = true ->
  parse_year (p ++ 47 :: y ++ s "/week_" ++ w ++ s ".htm") = Some (dec_value y) /\
  parse_week_num (p ++ 47 :: y ++ s "/week_" ++ w ++ s ".htm") = Some (dec_value w).
Proof.
  intros p y w Hp Hy Hyd Hw Hwd.
  unfold parse_year, parse_week_num. rewrite (week_captures_t p y w Hp Hy Hyd Hw Hwd).
  split; apply parse_u32_small; auto; try lia.
  - intros ->. discriminate.
  - intros ->. cbn in Hw. lia.
Qed.

(* ================================================================== *)
(** * Trimmed fields ([parse_player_stats_table]) *)










(* ================================================================== *)
(** * Shape of the output files ([process_week]) *)

Lemma record_vals_length : forall gi c st,
  List.length (record_vals gi c st) = (3 + List.length c)%nat.
Proof. intros gi c st. rewrite record_vals_eq, length_app, length_map. reflexivity. Qed.

Lemma game_writes_rows : forall cols gi ps w,
  game_writes cols gi ps = Some w ->
  forall x, In x w -> exists c, cols_get (fst x) cols = Some c /\
                                List.length (snd x) = (3 + List.length c)%nat.
Proof.
  intros cols gi ps. induction ps as [|p ps IH]; intros w H x Hx; cbn [game_writes] in H.
  - injection H as <-. destruct Hx.
  - destruct (cols_get (stats_type (typed_stats p)) cols) as [c|] eqn:Hc; [|discriminate].
    destruct (game_writes cols gi ps) as [w'|] eqn:Hw; [|discriminate].
    injection H as <-. destruct Hx as [<-|Hx].
    + exists c. split; [exact Hc | apply record_vals_length].
    + exact (IH w' eq_refl x Hx).
Qed.

Lemma data_writes_rows : forall cols games d,
  data_writes cols games = Some d ->
  forall x, In x d -> exists c, cols_get (fst x) cols = Some c /\
                                List.length (snd x) = (3 + List.length c)%nat.
Proof.
  intros cols games. induction games as [|gi gis IH]; intros d H x Hx; cbn [data_writes] in H.
  - injection H as <-. destruct Hx.
  - destruct (game_writes cols gi (player_stats (stats_of_game gi))) as [w1|] eqn:H1;
      [|discriminate].
    destruct (data_writes cols gis) as [w2|] eqn:H2; [|discriminate].
    injection H as <-. apply in_app_iff in Hx as [Hx|Hx].
    + exact (game_writes_rows _ _ _ _ H1 x Hx).
    + exact (IH w2 eq_refl x Hx).
Qed.

Lemma header_writes_rows : forall cols x,
  In x (header_writes cols) -> exists c, In (fst x, c) cols /\ snd x = coord_names ++ c.
Proof.
  intros cols x Hx. unfold header_writes in Hx. apply in_map_iff in Hx as [[t c] [<- Hin]].
  exists c. split; [exact Hin | reflexivity].
Qed.

Lemma cols_get_In_pair_nodup : forall cols t c,
  NoDup (map fst cols) -> In (t, c) cols -> cols_get t cols = Some c.
Proof.
  induction cols as [|[t' c'] cols IH]; intros t c Hd Hin; [destruct Hin|].
  inversion Hd as [|? ? Hn Hd']; subst. cbn [cols_get].
  destruct Hin as [E|Hin].
  - injection E as -> ->. rewrite (proj2 (StatsType_eqb_eq t t) eq_refl). reflexivity.
  - destruct (StatsType_eqb t t') eqn:He.
    + apply StatsType_eqb_eq in He. subst t'. exfalso. apply Hn.
      apply in_map_iff. exists (t, c). auto.
    + exact (IH t c Hd' Hin).
Qed.

Lemma In_file_of : forall t tr r, In r (file_of t tr) <-> In (t, r) tr.
Proof.
  intros t tr r. unfold file_of. rewrite in_map_iff. split.
  - intros [[t' r'] [Hr Hin]]. apply filter_In in Hin as [Hin He].
    cbn [fst snd] in *. apply StatsType_eqb_eq in He. subst. exact Hin.
  - intros Hin. exists (t, r). split; [reflexivity|]. apply filter_In. split; [exact Hin|].
    apply StatsType_eqb_eq. reflexivity.
Qed.

Lemma write_output_exists : forall games, exists d,
  data_writes (stats_type_cols games) games = Some d /\
  write_output games = Some (header_writes (stats_type_cols games) ++ d).
Proof.
  intros games.
  destruct (data_writes_file (stats_type_cols games) games) as [d [Hd _]].
  { intros ts Hts. apply fold_cols_present. exact Hts. }
  exists d. split; [exact Hd|]. unfold write_output. rewrite Hd. reflexivity.
Qed.

(** X5: the writes of [process_week] never hit one of its [unwrap]s (the
    writer and the columns of every record's category exist), and every
    row of a category's file, the header included, has the same number of
    fields: three coordinates plus one per column of the category. *)
Theorem write_output_rectangular : forall games,
  exists tr, write_output games = Some tr /\
    forall t r, In r (file_of t tr) ->
      exists c, cols_get t (stats_type_cols games) = Some c /\
                List.length r = (3 + List.length c)%nat.
Proof.
  intros games. destruct (write_output_exists games) as [d [Hd Hw]].
  exists (header_writes (stats_type_cols games) ++ d). split; [exact Hw|].
  intros t r Hr. apply In_file_of, in_app_iff in Hr as [Hr|Hr].
  - apply header_writes_rows in Hr as [c [Hin Hr]]. cbn [fst snd] in Hin, Hr.
    exists c. split.
    + apply cols_get_In_pair_nodup; [apply fold_cols_nodup; constructor | exact Hin].
    + rewrite Hr, length_app. reflexivity.
  - exact (data_writes_rows _ _ _ Hd (t, r) Hr).
Qed.

Lemma records_of_ex : forall t games,
  (exists x, In x (records_of t games)) <->
  exists ts, In ts (all_typed_stats games) /\ stats_type ts = t.
Proof.
  intros t games. unfold records_of, all_typed_stats. split.
  - intros [x Hx]. apply in_flat_map in Hx as [gi [Hgi Hx]].
    apply in_map_iff in Hx as [p [_ Hp]]. apply filter_In in Hp as [Hp He].
    apply StatsType_eqb_eq in He. exists (typed_stats p). split; [|exact He].
    apply in_flat_map. exists gi. split; [exact Hgi|]. apply in_map. exact Hp.
  - intros [ts [Hts He]]. apply in_flat_map in Hts as [gi [Hgi Hts]].
    apply in_map_iff in Hts as [p [<- Hp]].
    exists (gi, stats (typed_stats p)). apply in_flat_map. exists gi. split; [exact Hgi|].
    apply in_map_iff. exists p. split; [reflexivity|].
    apply filter_In. split; [exact Hp|]. apply StatsType_eqb_eq. exact He.
Qed.

Lemma cols_present_iff : forall t games,
  cols_get t (stats_type_cols games) <> None <->
  exists ts, In ts (all_typed_stats games) /\ stats_type ts = t.
Proof.
  intros t games. split.
  - intros H. destruct (cols_get t (stats_type_cols games)) as [c|] eqn:Hc; [|congruence].
    apply fold_cols_first in Hc as [Hc|[_ [pre [ts [post [Hl [_ [Ht _]]]]]]]];
      [discriminate|].
    exists ts. split; [|exact Ht]. rewrite Hl. apply in_or_app. right. left. reflexivity.
  - intros [ts [Hts <-]]. apply fold_cols_present. exact Hts.
Qed.

Lemma nil_iff_no_elem : forall (A : Type) (l : list A), l = [] <-> ~ exists x, In x l.
Proof.
  intros A [|a l]; split; intros H.
  - intros [x []].
  - reflexivity.
  - discriminate.
  - exfalso. apply H. exists a. left. reflexivity.
Qed.

(** X6: [process_week] creates a file for a category exactly when the week
    has at least one record of that category, and that file then holds one
    line per record plus the header. *)
Theorem file_per_category : forall games,
  exists tr, write_output games = Some tr /\
    forall t,
      (file_of t tr = [] <-> records_of t games = []) /\
      (records_of t games <> [] ->
       List.length (file_of t tr) = S (List.length (records_of t games))).
Proof.
  intros games. destruct (write_output_exists games) as [d [Hd Hw]].
  exists (header_writes (stats_type_cols games) ++ d). split; [exact Hw|]. intros t.
  rewrite file_of_app, file_of_headers by (apply fold_cols_nodup; constructor).
  destruct (cols_get t (stats_type_cols games)) as [c|] eqn:Hc.
  - destruct (data_writes_file (stats_type_cols games) games) as [d' [Hd' Hf]].
    { intros ts Hts. apply fold_cols_present. exact Hts. }
    rewrite Hd in Hd'. injection Hd' as <-. rewrite (Hf t c Hc).
    assert (Hne : records_of t games <> []).
    { rewrite nil_iff_no_elem, records_of_ex, <- cols_present_iff, Hc.
      intros H. apply H. discriminate. }
    split; [split; [discriminate | intros H; contradiction]|].
    intros _. cbn [app List.length]. rewrite length_map. reflexivity.
  - assert (Hn : records_of t games = []).
    { rewrite nil_iff_no_elem, records_of_ex, <- cols_present_iff, Hc. tauto. }
    assert (Hf : file_of t d = []).
    { apply nil_iff_no_elem. intros [r Hr]. apply In_file_of in Hr.
      destruct (data_writes_rows _ _ _ Hd (t, r) Hr) as [c [Hc' _]].
      cbn [fst] in Hc'. congruence. }
    rewrite Hn, Hf. split; [tauto|]. intros H. contradiction.
Qed.

(* ================================================================== *)
(** * The markup rewrite deletes only *)

Lemma subseq_refl : forall x, subseq x x.
Proof. induction x; constructor; assumption. Qed.

Lemma subseq_trans : forall x y z, subseq x y -> subseq y z -> subseq x z.
Proof.
  intros x y z Hxy Hyz. revert x Hxy.
  induction Hyz as [|c y z Hyz IH|c y z Hyz IH]; intros x Hxy.
  - exact Hxy.
  - inversion Hxy; subst; constructor; apply IH; assumption.
  - constructor. apply IH. exact Hxy.
Qed.

Lemma replace_empty_from_subseq : forall pat x skip,
  subseq (replace_empty_from pat skip x) x.
Proof.
  intros pat x. induction x as [|c x IH]; intros skip; cbn [replace_empty_from].
  - constructor.
  - destruct skip; [destruct (is_prefix pat (c :: x))|]; constructor; apply IH.
Qed.

(** X7: the rewrite applied to every fetched game log (and season page) only deletes
    characters: its output is a subsequence of its input, so it never
    adds, changes or reorders a character. *)
Theorem uncomment_subseq : forall x, subseq (uncomment x) x.
Proof.
  intros x. unfold uncomment, replace_empty.
  eapply subseq_trans; apply replace_empty_from_subseq.
Qed.

(* ================================================================== *)
(** * [process_year] *)

Lemma collect_results_ok : forall rs,
  collect_results rs = Ok tt <-> Forall (fun r => r = Ok tt) rs.
Proof.
  induction rs as [|r rs IH]; cbn [collect_results].
  - split; [constructor | reflexivity].
  - destruct r as [[]|e|]; split; intros H.
    + constructor; [reflexivity | apply IH, H].
    + inversion H; subst. apply IH. assumption.
    + discriminate.
    + inversion H; discriminate.
    + discriminate.
    + inversion H; discriminate.
Qed.

Lemma collect_results_err : forall rs e,
  collect_results rs = Err e <->
  exists pre post, rs = pre ++ Err e :: post /\ Forall (fun r => r = Ok tt) pre.
Proof.
  induction rs as [|r rs IH]; intros e; cbn [collect_results].
  - split; [discriminate|]. intros [[|? ?] [post [H _]]]; discriminate.
  - destruct r as [[]|e'|]; split.
    + intros H. apply IH in H as [pre [post [-> Hf]]].
      exists (Ok tt :: pre), post. split; [reflexivity | constructor; auto].
    + intros [[|r pre] [post [H Hf]]]; [discriminate|].
      injection H as Hr H. subst r. inversion Hf; subst. apply IH. eauto.
    + intros H. injection H as ->. exists [], rs. split; [reflexivity | constructor].
    + intros [[|r pre] [post [H Hf]]].
      * injection H as -> _. reflexivity.
      * injection H as Hr _. subst r. inversion Hf. discriminate.
    + discriminate.
    + intros [[|r pre] [post [H Hf]]]; [discriminate|].
      injection H as Hr _. subst r. inversion Hf. discriminate.
Qed.

Lemma existsb_panic_In : forall rs, existsb is_panic rs = true <-> In Panic rs.
Proof.
  intros rs. rewrite existsb_exists. split.
  - intros [r [Hr Hi]]. destruct r; try discriminate. exact Hr.
  - intros H. exists Panic. auto.
Qed.

Lemma collect_results_no_panic : forall rs,
  existsb is_panic rs = false -> collect_results rs <> Panic.
Proof. induction rs as [|[]]; cbn; try discriminate; auto. Qed.

(** X8: [process_year] succeeds exactly when every week succeeds; a panic
    in any week aborts it; otherwise it fails with the error of the first
    failing week in the order of the season page, later errors being
    dropped. *)
Theorem process_year_outcome : forall rs,
  (process_year_result rs = Ok tt <-> Forall (fun r => r = Ok tt) rs) /\
  (process_year_result rs = Panic <-> In Panic rs) /\
  (forall e, process_year_result rs = Err e <->
     ~ In Panic rs /\
     exists pre post, rs = pre ++ Err e :: post /\ Forall (fun r => r = Ok tt) pre).
Proof.
  intros rs.
  unfold process_year_result. split; [|split].
  - destruct (existsb is_panic rs) eqn:E.
    + split; [discriminate|]. intros Hf. apply existsb_panic_In in E.
      rewrite Forall_forall in Hf. specialize (Hf _ E). discriminate.
    + rewrite <- collect_results_ok. destruct (collect_results rs) as [[]|e|] eqn:C.
      * tauto.
      * split; discriminate.
      * split; [|discriminate]. intros _. exfalso.
        exact (collect_results_no_panic rs E C).
  - destruct (existsb is_panic rs) eqn:E.
    + split; [intros _; apply existsb_panic_In; exact E | reflexivity].
    + split; [destruct (collect_results rs); discriminate|].
      intros H. apply existsb_panic_In in H. congruence.
  - intros e. rewrite <- collect_results_err. destruct (existsb is_panic rs) eqn:E.
    + split; [discriminate|]. intros [H _]. apply existsb_panic_In in E. contradiction.
    + assert (Hn : ~ In Panic rs) by (rewrite <- existsb_panic_In; congruence).
      destruct (collect_results rs) as [[]|e'|] eqn:C; split; intros H;
        first [ discriminate
              | apply proj2 in H; first [discriminate | exact H]
              | split; [exact Hn | exact H] ].
Qed.

(* ================================================================== *)
(** * Concrete inputs *)

Definition cellP : node :=
  Element (s "th") [(s "data-stat", s "player"); (s "data-append-csv", s "X")]
          [Element (s "a") [(s "href", s "/players/X.htm")] [Text (s "Player A")]].
Definition cellY : node := Element (s "td") [(s "data-stat", s "yards")] [Text (s " 57 ")].
Definition cellA : node := Element (s "td") [(s "data-stat", s "att")] [Text (s "3")].

(** A data row (with a white-space text node between cells). *)
Definition row0 : node := Element (s "tr") [] [Text (s " "); cellP; cellY; cellA].

(** A header row of a table body. *)
Definition hdr_row : node :=
  Element (s "tr") [(s "class", s "thead")]
          [Element (s "th") [(s "aria-label", s "Player")] [Text (s "Player")]].

(** A row whose [data-stat] names a field [player_id]. *)
Definition collide_row : node :=
  Element (s "tr") [] [cellP; Element (s "td") [(s "data-stat", s "player_id")] [Text (s "Y")]].

Definition m0 : btmap :=
  [(s "att", s "3"); (s "player", s "Player A"); (s "player_id", s "X"); (s "yards", s "57")].

Definition p0 : PlayerGameStats :=
  {| player_id := s "X"; player_name := s "Player A";
     typed_stats := {| stats_type := Offense; stats := m0 |} |}.

Definition gi0 : GameInfo :=
  {| year := 2021; week_num := 1;
     stats_of_game := {| game_id := s "202109090tam"; player_stats := [p0] |} |}.

(** A later record of the same category with a field [td] the first one
    lacks. *)
Definition gi1 : GameInfo :=
  {| year := 2021; week_num := 1;
     stats_of_game := {| game_id := s "202109120atl";
       player_stats := [{| player_id := s "Z"; player_name := s "Player B";
         typed_stats := {| stats_type := Offense;
           stats := [(s "player", s "Player B"); (s "player_id", s "Z");
                     (s "td", s "1"); (s "yards", s "12")] |} |}] |} |}.

Definition cols0 : list str := [s "att"; s "player"; s "player_id"; s "yards"].

Definition table (id : String.string) (body : list node) : node :=
  Element (s "table") [(s "id", s id)] [Element (s "tbody") [] body].

Definition canonical : node :=
  Element (s "link") [(s "rel", s "canonical");
                      (s "href", s "https://www.pro-football-reference.com/boxscores/202109090tam.htm")] [].

(** All mandatory sections, no advanced section. *)
Definition doc_full : html :=
  [Element (s "html") []
     [Element (s "head") [] [canonical];
      Element (s "body") []
        [table "player_offense" [hdr_row; row0]; table "player_defense" [];
         table "returns" [hdr_row]; table "kicking" []]]].

(** As [doc_full], but the kicking table has no body. *)
Definition doc_nobody : html :=
  [Element (s "html") []
     [Element (s "head") [] [canonical];
      Element (s "body") []
        [table "player_offense" [hdr_row; row0]; table "player_defense" [];
         table "returns" [hdr_row];
         Element (s "table") [(s "id", s "kicking")] []]]].

(** A regular-expression engine answer for the canonical link above. *)
Definition capture0 (link : str) : option str := Some (s "202109090tam").

Definition marked : str :=
  s "<div>" ++ [nl] ++ s "<!--" ++ [nl] ++ s "<table></table>" ++ [nl] ++ s "-->" ++ [nl] ++ s "</div>".
Definition unmarked : str := s "<div><table></table></div>".

Definition mB : btmap :=
  [(s "player", s "Player B"); (s "player_id", s "Z"); (s "td", s "1"); (s "yards", s "12")].
Definition mB_schema_only : btmap :=
  [(s "player", s "Player B"); (s "player_id", s "Z"); (s "yards", s "12")].

Definition pC : PlayerGameStats :=
  {| player_id := s "Y"; player_name := s "Player A";
     typed_stats := {| stats_type := Offense;
                       stats := [(s "player", s "Player A"); (s "player_id", s "Y")] |} |}.

(* ================================================================== *)
(** * Witnesses and counterexamples *)

Lemma extract_row0 : extract_row Offense row0 = Some p0.
Proof. vm_compute; reflexivity. Qed.

Lemma schema_is_first_record_keys_witness :
  cols_get Offense (stats_type_cols [gi0]) = Some cols0 /\
  exists pre ts post,
    all_typed_stats [gi0] = pre ++ ts :: post /\
    Forall (fun x => stats_type x <> Offense) pre /\ stats_type ts = Offense /\
    cols0 = bt_keys (stats ts) /\
    Sorted str_lt cols0 /\ In (s "player_id") cols0 /\ In (s "player") cols0.
Proof.
  split; [reflexivity|].
  apply schema_is_first_record_keys; [reflexivity|].
  intros ts [<-|[]]; exists row0, p0; split; [exact extract_row0 | reflexivity].
Defined.

(** C1 fails as stated: for the row [player X "Player A", yards 57, att 3]
    the columns are [att, player, player_id, yards], while the spec's
    construction gives [yards, att]. *)
Lemma schema_discovery_order_counterexample :
  extract_row Offense row0 = Some p0 /\
  cols_get Offense (stats_type_cols [gi0]) = Some [s "att"; s "player"; s "player_id"; s "yards"] /\
  spec_schema (children row0) = [s "yards"; s "att"] /\
  cols_get Offense (stats_type_cols [gi0]) <> Some (spec_schema (children row0)).
Proof.
  split; [exact extract_row0|]; split; [reflexivity|]; split; [vm_compute; reflexivity|].
  vm_compute; discriminate.
Qed.

Lemma schema_frozen_witness :
  cols_get Offense (stats_type_cols [gi0]) = Some cols0 /\
  cols_get Offense (stats_type_cols ([gi0] ++ [gi1])) = Some cols0 /\
  record_vals gi1 cols0 mB = record_vals gi1 cols0 mB_schema_only.
Proof.
  destruct (schema_frozen [gi0] [gi1] Offense cols0 eq_refl) as [H1 H2].
  split; [reflexivity|]; split; [exact H1|].
  apply H2; intros k Hk; simpl in Hk.
  destruct Hk as [<-|[<-|[<-|[<-|[]]]]]; reflexivity.
Defined.

Lemma game_log_sections_witness :
  game_link_id capture0 doc_full = Some (s "202109090tam") /\
  exists gs, parse_game_log capture0 doc_full = Ok gs /\ game_id gs = s "202109090tam" /\
    forall t,
      filter (fun p => StatsType_eqb (stats_type (typed_stats p)) t) (player_stats gs)
        = section_records doc_full t /\
      (select_first (sel_id (anchor_of t)) doc_full = None -> section_records doc_full t = []).
Proof.
  split; [reflexivity|].
  apply (proj2 (game_log_sections capture0)).
  - reflexivity.
  - intros t Ht; destruct t; try discriminate Ht; vm_compute; discriminate.
  - intros t tbl H; destruct t; vm_compute in H; try discriminate H;
      injection H as <-; vm_compute; discriminate.
Defined.

(** C3 fails as stated: every mandatory section of [doc_nobody] is present
    and only the optional ones are absent, yet no regular-expression answer
    makes its extraction succeed (the kicking table has no body: panic). *)
Lemma game_log_panics_counterexample :
  forallb (fun t => negb (mandatory t) ||
                    match select_first (sel_id (anchor_of t)) doc_nobody with
                    | Some _ => true | None => false end) all_stats_types = true /\
  forallb (fun t => mandatory t ||
                    match select_first (sel_id (anchor_of t)) doc_nobody with
                    | Some _ => false | None => true end) all_stats_types = true /\
  ~ (exists cap gs, parse_game_log cap doc_nobody = Ok gs).
Proof.
  split; [vm_compute; reflexivity|]; split; [vm_compute; reflexivity|].
  intros [cap [gs H]]; unfold parse_game_log in H.
  destruct (game_link_id cap doc_nobody); [|discriminate].
  vm_compute in H; discriminate.
Qed.

Lemma output_file_rows_witness :
  cols_get Offense (stats_type_cols [gi0]) = Some cols0 /\
  exists tr, write_output [gi0] = Some tr /\
    file_of Offense tr =
      (coord_names ++ cols0) ::
      map (fun gm => coords (fst gm) ++ map (cell_or_empty (snd gm)) cols0)
          (records_of Offense [gi0]).
Proof.
  split; [reflexivity|].
  apply output_file_rows; reflexivity.
Defined.

Lemma cell_value_levels_witness :
  scan_cells bt_new (children row0) = Some m0 /\
  ((s "yards" = s "player_id" /\
    exists cell, In cell (children row0) /\
                 node_attr (s "data-append-csv") cell = Some (s "57"))
   \/
   (exists cell sn t,
      In cell (children row0) /\ node_attr (s "data-stat") cell = Some sn /\
      s "yards" = trim sn /\ s "57" = trim t /\
      ((sn = s "player" /\
        exists a, first_child cell = Some a /\ first_child a = Some (Text t))
       \/ (sn <> s "player" /\ first_child cell = Some (Text t))))).
Proof.
  assert (H : scan_cells bt_new (children row0) = Some m0) by (vm_compute; reflexivity).
  split; [exact H|].
  apply (proj1 (cell_value_levels row0 m0 H)); reflexivity.
Defined.

Lemma non_data_row_dropped_witness :
  (exists c, In c (children hdr_row) /\ (exists nm a k, c = Element nm a k) /\
             node_attr (s "data-stat") c = None) /\
  scan_cells bt_new (children hdr_row) = None /\ extract_row Offense hdr_row = None /\
  extract_rows Offense ([row0] ++ hdr_row :: []) = extract_rows Offense ([row0] ++ []).
Proof.
  assert (Hc : exists c, In c (children hdr_row) /\ (exists nm a k, c = Element nm a k) /\
                         node_attr (s "data-stat") c = None).
  { eexists; split; [left; reflexivity|]; split; [do 3 eexists; reflexivity|].
    vm_compute; reflexivity. }
  split; [exact Hc|]; apply non_data_row_dropped; exact Hc.
Defined.

(** C8 fails as stated: a located table with no body and no data rows
    panics instead of giving [Ok []]. *)
Lemma locate_table_panic_counterexample :
  select_first (sel_id (s "kicking")) doc_nobody <> None /\
  parse_player_stats_table doc_nobody (s "kicking") Kicking = Panic.
Proof. split; vm_compute; [discriminate | reflexivity]. Qed.

Lemma locate_table_outcomes_witness :
  select_first (sel_id (s "passing_advanced")) doc_full = None /\
  parse_player_stats_table doc_full (s "passing_advanced") AdvPassing
    = Err (missing_table_msg (s "passing_advanced")).
Proof.
  assert (H : select_first (sel_id (s "passing_advanced")) doc_full = None)
    by (vm_compute; reflexivity).
  split; [exact H|].
  apply (proj1 (locate_table_outcomes doc_full (s "passing_advanced") AdvPassing)); exact H.
Defined.

Lemma uncomment_without_markers_witness :
  contains (nl :: s "<!--") unmarked = false /\
  contains (nl :: s "-->") unmarked = false /\
  uncomment unmarked = unmarked.
Proof.
  assert (H1 : contains (nl :: s "<!--") unmarked = false) by (vm_compute; reflexivity).
  assert (H2 : contains (nl :: s "-->") unmarked = false) by (vm_compute; reflexivity).
  split; [exact H1|]; split; [exact H2|].
  apply uncomment_without_markers; assumption.
Defined.

Lemma row_keys_unique_last_wins_witness :
  extract_row Offense collide_row = Some pC /\
  NoDup (bt_keys (stats (typed_stats pC))) /\
  forall k, bt_get k (stats (typed_stats pC)) = last_write k (row_writes (children collide_row)).
Proof.
  assert (H : extract_row Offense collide_row = Some pC) by (vm_compute; reflexivity).
  split; [exact H|].
  apply (row_keys_unique_last_wins Offense collide_row pC H).
Defined.

Lemma row_kept_iff_identity_witness :
  (exists p, extract_row Offense row0 = Some p) /\
  (exists m, scan_cells bt_new (children row0) = Some m /\
             bt_get (s "player_id") m <> None /\ bt_get (s "player") m <> None).
Proof.
  split; [exists p0; exact extract_row0|].
  apply (proj1 (proj1 (row_kept_iff_identity Offense row0))).
  exists p0; exact extract_row0.
Defined.

Lemma week_uri_parse_witness :
  parse_year (s "https://www.pro-football-reference.com/years/2021/week_17.htm") = Some 2021 /\
  parse_week_num (s "https://www.pro-football-reference.com/years/2021/week_17.htm") = Some 17.
Proof.
  apply (week_uri_parse (s "https://www.pro-football-reference.com/years") (s "2021") (s "17")).
  - intros c Hc Hn. subst c. vm_compute in Hc.
    repeat (destruct Hc as [Hc|Hc]; [discriminate Hc|]). exact Hc.
  - reflexivity.
  - reflexivity.
  - right. reflexivity.
  - reflexivity.
Defined.

